(** * Pygame_Puzzle: the piece model, the piece factory, the layout
      randomizer and the drag controller of [main.py]

    A shallow embedding of [main.py] and the properties of its
    specification.

    Modelling conventions.
    - Python integers are unbounded, so coordinates are [Z]; [//] is
      [Z.div] (both round towards minus infinity) behind an explicit test
      for a zero divisor, and [abs] is [Z.abs].  pygame keeps the fields
      of a rectangle in machine integers; the coordinates of a session
      stay far inside their range and the model puts no bound on them.
    - A [pygame.Surface] is represented by its size and by the offset of
      its pixel block inside the image that was loaded; the pixel values
      themselves play no part in the game logic.
    - [PuzzlePiece] objects are mutable and compared by identity.  They
      live in a heap (a list indexed by object reference); the Python list
      [pieces] and the local [selected_piece] hold references.
    - Exceptions are values of [exn]; a computation that can raise returns
      a [result]. *)

From stdpp Require Import base numbers option list.

Open Scope Z_scope.

(** ** Configuration *)

Definition GRID_ROWS : Z := 3.
Definition GRID_COLS : Z := 3.
Definition SNAP_DISTANCE : Z := 20.
Definition SCREEN_WIDTH : Z := 800.
Definition SCREEN_HEIGHT : Z := 600.

(** ** Exceptions *)

(** [InvalidRef] is not a Python exception: it is the outcome of the model
    when a reference points outside the heap, which no session built by
    [main] ever does (see [wf_session]). *)
Inductive exn : Set :=
  | ZeroDivisionError
  | ValueError
  | InvalidRef.

Inductive result (A : Type) : Type :=
  | Ok (a : A)
  | Raise (e : exn).

Arguments Ok {A} a.
Arguments Raise {A} e.

#[export] Instance result_ret : MRet result := λ A a, Ok a.

#[export] Instance result_bind : MBind result := λ A B f m,
  match m with
  | Ok a => f a
  | Raise e => Raise e
  end.

(** A [for] loop whose body may raise: the body receives the loop variable
    and the state built so far. *)
Fixpoint for_each {A S : Type} (items : list A) (body : A → S → result S)
    (st : S) : result S :=
  match items with
  | [] => Ok st
  | a :: items' => st' ← body a st; for_each items' body st'
  end.

(** [a // b] *)
Definition floordiv (a b : Z) : result Z :=
  if decide (b = 0) then Raise ZeroDivisionError else Ok (a / b).

(** [range(n)] *)
Definition range (n : Z) : list Z := seqZ 0 n.

(** ** pygame.Rect *)

Module Rect.

Record t : Set := mk { x : Z; y : Z; width : Z; height : Z }.

Definition topleft (r : t) : Z * Z := (x r, y r).

(** [r.topleft = pos] *)
Definition set_topleft (r : t) (pos : Z * Z) : t :=
  mk pos.1 pos.2 (width r) (height r).

(** [r.x = v] and [r.y = v] *)
Definition set_x (r : t) (v : Z) : t := mk v (y r) (width r) (height r).
Definition set_y (r : t) (v : Z) : t := mk (x r) v (width r) (height r).

(** [r.collidepoint(pos)]: points on the right and bottom edges are
    outside. *)
Definition collidepoint (r : t) (pos : Z * Z) : bool :=
  bool_decide (x r ≤ pos.1 ∧ pos.1 < x r + width r ∧
               y r ≤ pos.2 ∧ pos.2 < y r + height r).

(** [r.center] and [r.center = pos]: pygame halves the size with the
    integer division of C. *)
Definition center (r : t) : Z * Z :=
  (x r + width r ÷ 2, y r + height r ÷ 2).

Definition set_center (r : t) (pos : Z * Z) : t :=
  mk (pos.1 - width r ÷ 2) (pos.2 - height r ÷ 2) (width r) (height r).

End Rect.

(** ** pygame.Surface *)

Module Surface.

(** [src_x], [src_y]: where the pixel block of this surface starts in
    the loaded image. *)
Record t : Set := mk { w : Z; h : Z; src_x : Z; src_y : Z }.

Definition get_size (s : t) : Z * Z := (w s, h s).

(** [s.subsurface(rect)] raises [ValueError] when the rectangle is not
    inside the surface; a rectangle inside the surface is accepted also
    when its width or height is zero. *)
Definition subsurface (s : t) (r : Rect.t) : result t :=
  if decide (Rect.x r < 0 ∨ Rect.y r < 0 ∨
             w s < Rect.x r + Rect.width r ∨
             h s < Rect.y r + Rect.height r)
  then Raise ValueError
  else Ok (mk (Rect.width r) (Rect.height r)
              (src_x s + Rect.x r) (src_y s + Rect.y r)).

Definition copy (s : t) : t := s.

(** [s.get_rect(topleft=pos)] *)
Definition get_rect (s : t) (pos : Z * Z) : Rect.t :=
  Rect.mk pos.1 pos.2 (w s) (h s).

(** A surface has a size that is not negative. *)
Definition valid (s : t) : Prop := 0 ≤ w s ∧ 0 ≤ h s.

End Surface.

(** ** PuzzlePiece *)

Record PuzzlePiece : Set := mkPiece {
  image : Surface.t;
  correct_pos : Z * Z;
  rect : Rect.t;
  moving : bool
}.

(** [PuzzlePiece.__init__] *)
Definition PuzzlePiece_init (image : Surface.t) (correct_pos : Z * Z)
    : PuzzlePiece :=
  mkPiece image correct_pos (Surface.get_rect image correct_pos) false.

Definition set_rect (p : PuzzlePiece) (r : Rect.t) : PuzzlePiece :=
  mkPiece (image p) (correct_pos p) r (moving p).

Definition set_moving (p : PuzzlePiece) (b : bool) : PuzzlePiece :=
  mkPiece (image p) (correct_pos p) (rect p) b.

(** [PuzzlePiece.snap_to_place]: the returned boolean and the piece after
    the call. *)
Definition snap_to_place (self : PuzzlePiece) : bool * PuzzlePiece :=
  let '(correct_x, correct_y) := correct_pos self in
  let '(current_x, current_y) := Rect.topleft (rect self) in
  if bool_decide (Z.abs (current_x - correct_x) < SNAP_DISTANCE) &&
     bool_decide (Z.abs (current_y - correct_y) < SNAP_DISTANCE)
  then (true, set_rect self (Rect.set_topleft (rect self) (correct_pos self)))
  else (false, self).

(** [PuzzlePiece.update_position] *)
Definition update_position (self : PuzzlePiece) (pos : Z * Z) : PuzzlePiece :=
  set_rect self (Rect.set_center (rect self) pos).

(** ** The display surface *)

(** The screen is the list of the drawing commands it received, oldest
    first. *)
Inductive DrawCmd : Set :=
  | Fill (color : Z * Z * Z)
  | DrawRect (color : Z * Z * Z) (area : Rect.t) (thickness : Z)
  | Blit (source : Surface.t) (dest : Z * Z)
  | Flip.

(** [PuzzlePiece.draw] *)
Definition draw (self : PuzzlePiece) (surface : list DrawCmd) : list DrawCmd :=
  surface ++ [Blit (image self) (Rect.topleft (rect self))].

(** ** create_puzzle_pieces *)

(** The body of the two nested loops for one cell. *)
Definition create_cell (image : Surface.t) (start_pos : Z * Z)
    (piece_width piece_height row col : Z) (pieces : list PuzzlePiece)
    : result (list PuzzlePiece) :=
  let rect := Rect.mk (col * piece_width) (row * piece_height)
                      piece_width piece_height in
  sub ← Surface.subsurface image rect;
  let piece_image := Surface.copy sub in
  let correct_x := start_pos.1 + col * piece_width in
  let correct_y := start_pos.2 + row * piece_height in
  let piece := PuzzlePiece_init piece_image (correct_x, correct_y) in
  Ok (pieces ++ [piece]).

(** The result lists the new objects in the order in which they were
    appended. *)
Definition create_puzzle_pieces (image : Surface.t) (grid_rows grid_cols : Z)
    (start_pos : Z * Z) : result (list PuzzlePiece) :=
  let pieces := [] in
  let '(image_width, image_height) := Surface.get_size image in
  piece_width ← floordiv image_width grid_cols;
  piece_height ← floordiv image_height grid_rows;
  for_each (range grid_rows) (λ row pieces,
    for_each (range grid_cols) (λ col pieces,
      create_cell image start_pos piece_width piece_height row col pieces)
      pieces)
    pieces.

(** ** The heap of PuzzlePiece objects *)

(** An object reference is an index into the heap. *)
Definition deref (heap : list PuzzlePiece) (r : nat) : result PuzzlePiece :=
  match heap !! r with
  | Some piece => Ok piece
  | None => Raise InvalidRef
  end.

(** [l.remove(r)]: drops the first occurrence, raises [ValueError] when
    there is none.  Pieces define no [__eq__], so they compare by
    identity, that is, by reference. *)
Fixpoint list_remove (r : nat) (l : list nat) : result (list nat) :=
  match l with
  | [] => Raise ValueError
  | a :: l' =>
      if decide (a = r) then Ok l'
      else l'' ← list_remove r l'; Ok (a :: l'')
  end.

(** ** random.randint *)

(** The generator is a tape of raw draws, read from the left; an exhausted
    tape reads as 0.  [randint a b] raises [ValueError] on an empty range
    and otherwise maps the next draw into [a..b]. *)
Definition randint (a b : Z) (tape : list Z) : result (Z * list Z) :=
  if decide (b < a) then Raise ValueError
  else Ok (a + hd 0 tape `mod` (b - a + 1), tl tape).

(** ** shuffle_pieces *)

(** The loop body for one reference of the list. *)
Definition shuffle_piece (screen_rect : Rect.t) (r : nat)
    (st : list PuzzlePiece * list Z) : result (list PuzzlePiece * list Z) :=
  let '(heap, tape) := st in
  piece ← deref heap r;
  '(vx, tape) ← randint 0 (Rect.width screen_rect - Rect.width (rect piece)) tape;
  let piece := set_rect piece (Rect.set_x (rect piece) vx) in
  let heap := <[r := piece]> heap in
  '(vy, tape) ← randint 0 (Rect.height screen_rect - Rect.height (rect piece)) tape;
  let piece := set_rect piece (Rect.set_y (rect piece) vy) in
  Ok (<[r := piece]> heap, tape).

Definition shuffle_pieces (pieces : list nat) (screen_rect : Rect.t)
    (st : list PuzzlePiece * list Z) : result (list PuzzlePiece * list Z) :=
  for_each pieces (shuffle_piece screen_rect) st.

(** ** The event loop of main *)

Inductive Event : Set :=
  | QUIT
  | MOUSEBUTTONDOWN (button : Z) (pos : Z * Z)
  | MOUSEMOTION (pos : Z * Z)
  | MOUSEBUTTONUP (button : Z) (pos : Z * Z)
  | OTHER.

(** The locals of [main] that the loop reads and writes, and the heap. *)
Record Session : Set := mkSession {
  heap : list PuzzlePiece;
  pieces : list nat;
  selected_piece : option nat;
  offset_x : Z;
  offset_y : Z;
  running : bool
}.

(** [for piece in reversed(pieces): if piece.rect.collidepoint(pos): ...
    break], over the references still to be visited. *)
Fixpoint mousedown_loop (todo : list nat) (pos : Z * Z) (s : Session)
    : result Session :=
  match todo with
  | [] => Ok s
  | r :: todo' =>
      piece ← deref (heap s) r;
      if Rect.collidepoint (rect piece) pos then
        let offset_x := pos.1 - Rect.x (rect piece) in
        let offset_y := pos.2 - Rect.y (rect piece) in
        let heap' := <[r := set_moving piece true]> (heap s) in
        pieces' ← list_remove r (pieces s);
        Ok (mkSession heap' (pieces' ++ [r]) (Some r) offset_x offset_y
                      (running s))
      else mousedown_loop todo' pos s
  end.

(** The body of [for event in pygame.event.get()]. *)
Definition handle_event (s : Session) (event : Event) : result Session :=
  match event with
  | QUIT =>
      Ok (mkSession (heap s) (pieces s) (selected_piece s) (offset_x s)
                    (offset_y s) false)
  | MOUSEBUTTONDOWN button pos =>
      if decide (button = 1) then mousedown_loop (reverse (pieces s)) pos s
      else Ok s
  | MOUSEMOTION pos =>
      match selected_piece s with
      | Some r =>
          piece ← deref (heap s) r;
          if moving piece then
            let new_pos := (pos.1 - offset_x s, pos.2 - offset_y s) in
            let piece := set_rect piece (Rect.set_topleft (rect piece) new_pos) in
            Ok (mkSession (<[r := piece]> (heap s)) (pieces s)
                          (selected_piece s) (offset_x s) (offset_y s)
                          (running s))
          else Ok s
      | None => Ok s
      end
  | MOUSEBUTTONUP button _ =>
      if decide (button = 1) then
        match selected_piece s with
        | Some r =>
            piece ← deref (heap s) r;
            let piece := set_moving piece false in
            let piece := (snap_to_place piece).2 in
            Ok (mkSession (<[r := piece]> (heap s)) (pieces s) None
                          (offset_x s) (offset_y s) (running s))
        | None => Ok s
        end
      else Ok s
  | OTHER => Ok s
  end.

(** The events of the session, in arrival order. *)
Definition run_events (s : Session) (events : list Event) : result Session :=
  for_each events (λ event s, handle_event s event) s.

(** The set-up of [main] after the image was loaded: the pieces are cut,
    allocated at references [0 .. n-1], scattered, and nothing is
    selected. *)
Definition setup (image : Surface.t) (screen_rect : Rect.t) (tape : list Z)
    : result Session :=
  let puzzle_start_pos := (50, 50) in
  objs ← create_puzzle_pieces image GRID_ROWS GRID_COLS puzzle_start_pos;
  let pieces := seq 0 (length objs) in
  '(heap, _) ← shuffle_pieces pieces screen_rect (objs, tape);
  Ok (mkSession heap pieces None 0 0 true).

Definition puzzle_start_pos : Z * Z := (50, 50).

(** [pygame.Rect(puzzle_start_pos, original_image.get_size())] *)
Definition puzzle_area (original_image : Surface.t) : Rect.t :=
  Rect.mk puzzle_start_pos.1 puzzle_start_pos.2
          (Surface.get_size original_image).1
          (Surface.get_size original_image).2.

(** The drawing part of one turn of the loop: background, outline of the
    solved puzzle, the pieces in the order of the render list, flip. *)
Definition render (original_image : Surface.t) (s : Session)
    : result (list DrawCmd) :=
  let screen := [Fill (50, 50, 50)] in
  let screen :=
    screen ++ [DrawRect (200, 200, 200) (puzzle_area original_image) 3] in
  screen ← for_each (pieces s) (λ r screen,
    piece ← deref (heap s) r; Ok (draw piece screen)) screen;
  Ok (screen ++ [Flip]).

(** [while running: ...]: each turn handles the batch of events that
    [pygame.event.get()] returns and draws one frame.  The batches that
    the event source will deliver are the first argument; the model stops
    when they are used up.  The result is the session at the exit of the
    loop and the frames drawn, oldest first. *)
Fixpoint main_loop (original_image : Surface.t) (batches : list (list Event))
    (s : Session) (frames : list (list DrawCmd))
    : result (Session * list (list DrawCmd)) :=
  match batches with
  | [] => Ok (s, frames)
  | batch :: batches' =>
      if running s then
        s' ← run_events s batch;
        frame ← render original_image s';
        main_loop original_image batches' s' (frames ++ [frame])
      else Ok (s, frames)
  end.

(** ** Predicates used by the statements *)

(** The pixel block of the loaded image that a piece shows. *)
Definition block (p : PuzzlePiece) : Rect.t :=
  Rect.mk (Surface.src_x (image p)) (Surface.src_y (image p))
          (Surface.w (image p)) (Surface.h (image p)).

(** The rectangle of the piece has the size of its image. *)
Definition size_matches (p : PuzzlePiece) : Prop :=
  Rect.width (rect p) = Surface.w (image p) ∧
  Rect.height (rect p) = Surface.h (image p).

(** The command paints the position. *)
Definition covers (pos : Z * Z) (cmd : DrawCmd) : bool :=
  match cmd with
  | Blit source dest => Rect.collidepoint (Surface.get_rect source dest) pos
  | _ => false
  end.

(** The last piece painted over the position, that is, the piece one sees
    there; [None] when no piece was painted over it. *)
Definition visible_at (frame : list DrawCmd) (pos : Z * Z) : option DrawCmd :=
  head (filter (λ cmd, covers pos cmd = true) (reverse frame)).

(** The command that draws the piece at a reference. *)
Definition draws (hp : list PuzzlePiece) (r : nat) (cmd : DrawCmd) : Prop :=
  ∃ p, hp !! r = Some p ∧ cmd = Blit (image p) (Rect.topleft (rect p)).

(** [p'] is [p] up to its position and its [moving] flag. *)
Definition same_piece (p p' : PuzzlePiece) : Prop :=
  image p' = image p ∧ correct_pos p' = correct_pos p ∧
  Rect.width (rect p') = Rect.width (rect p) ∧
  Rect.height (rect p') = Rect.height (rect p).

(** The rectangle a piece covers once it is solved. *)
Definition target_rect (p : PuzzlePiece) : Rect.t :=
  Surface.get_rect (image p) (correct_pos p).

(** The piece that [create_puzzle_pieces] builds for the cell [(row, col)]. *)
Definition cell_piece (image : Surface.t) (start_pos : Z * Z)
    (piece_width piece_height row col : Z) : PuzzlePiece :=
  PuzzlePiece_init
    (Surface.mk piece_width piece_height
       (Surface.src_x image + col * piece_width)
       (Surface.src_y image + row * piece_height))
    (start_pos.1 + col * piece_width, start_pos.2 + row * piece_height).

(** All cells, rows from the top, each row from the left. *)
Definition grid (image : Surface.t) (start_pos : Z * Z)
    (piece_width piece_height grid_rows grid_cols : Z) : list PuzzlePiece :=
  range grid_rows ≫= λ row,
    cell_piece image start_pos piece_width piece_height row <$> range grid_cols.

(** The references of the render list are distinct and point into the
    heap. *)
Definition wf_session (s : Session) : Prop :=
  NoDup (pieces s) ∧ ∀ r, r ∈ pieces s → is_Some (heap s !! r).

(** A session as [setup] leaves it: nothing selected, no piece moving. *)
Definition initial (s : Session) : Prop :=
  wf_session s ∧ selected_piece s = None ∧
  ∀ r piece, heap s !! r = Some piece → moving piece = false.

(** A piece as its constructor leaves it: the rectangle sits on the
    target. *)
Definition fresh (p : PuzzlePiece) : Prop :=
  rect p = Surface.get_rect (image p) (correct_pos p) ∧ moving p = false.

(** The piece fits into the rectangle of the screen. *)
Definition fits (screen_rect : Rect.t) (p : PuzzlePiece) : Prop :=
  Rect.width (rect p) ≤ Rect.width screen_rect ∧
  Rect.height (rect p) ≤ Rect.height screen_rect.

(** [p'] is [p] moved to a top-left corner that keeps the whole piece
    inside the screen. *)
Definition scattered (screen_rect : Rect.t) (p p' : PuzzlePiece) : Prop :=
  0 ≤ Rect.x (rect p') ≤ Rect.width screen_rect - Rect.width (rect p') ∧
  0 ≤ Rect.y (rect p') ≤ Rect.height screen_rect - Rect.height (rect p') ∧
  Rect.width (rect p') = Rect.width (rect p) ∧
  Rect.height (rect p') = Rect.height (rect p) ∧
  image p' = image p ∧ correct_pos p' = correct_pos p ∧
  moving p' = moving p.

(** No piece visited by the loop contains the position. *)
Definition all_miss (heap : list PuzzlePiece) (pos : Z * Z) (l : list nat)
    : Prop :=
  ∀ r, r ∈ l →
    ∃ p, heap !! r = Some p ∧ Rect.collidepoint (rect p) pos = false.

(** What every session that [main] can reach satisfies: the render list
    is well formed, and a selected piece is in the render list and has its
    [moving] flag set. *)
Definition session_inv (s : Session) : Prop :=
  wf_session s ∧
  ∀ r, selected_piece s = Some r →
    r ∈ pieces s ∧ ∃ piece, heap s !! r = Some piece ∧ moving piece = true.

(** The session after the pointer picked up the piece [piece] at reference
    [r], with the render list [before ++ r :: after]. *)
Definition picked_up (s : Session) (pos : Z * Z) (before : list nat)
    (r : nat) (after : list nat) (piece : PuzzlePiece) : Session :=
  mkSession (<[r := set_moving piece true]> (heap s))
            (before ++ after ++ [r]) (Some r)
            (pos.1 - Rect.x (rect piece)) (pos.2 - Rect.y (rect piece))
            (running s).

(** ** Sessions used as examples *)

(** [screen.get_rect()] *)
Definition screen_rect : Rect.t := Rect.mk 0 0 SCREEN_WIDTH SCREEN_HEIGHT.

(** A 300 x 300 image, and draws that scatter its nine 100 x 100 pieces on
    a grid of step 200, so that no two of them overlap. *)
Definition demo_image : Surface.t := Surface.mk 300 300 0 0.

Definition demo_tape : list Z :=
  [0; 0; 200; 0; 400; 0; 0; 200; 200; 200; 400; 200; 0; 400; 200; 400;
   400; 400].

(** Three 50 x 50 pieces, nothing selected: the second lies over the
    lower right part of the first, the third lies apart. *)
Definition three_pieces : Session :=
  mkSession
    [ mkPiece (Surface.mk 50 50 0 0) (50, 50) (Rect.mk 0 0 50 50) false;
      mkPiece (Surface.mk 50 50 50 0) (100, 50) (Rect.mk 30 30 50 50) false;
      mkPiece (Surface.mk 50 50 100 0) (150, 50) (Rect.mk 200 0 50 50) false ]
    [0; 1; 2]%nat None 0 0 true.

(** [piece.moving] through a reference. *)
Definition is_moving (heap : list PuzzlePiece) (r : nat) : bool :=
  match heap !! r with
  | Some piece => moving piece
  | None => false
  end.

(** The references of the render list whose piece is being dragged. *)
Definition dragging (s : Session) : list nat :=
  filter (λ r, is_moving (heap s) r = true) (pieces s).

(** The pieces flagged as moving are exactly the selected piece, if any. *)
Definition tidy (s : Session) : Prop :=
  dragging s = match selected_piece s with Some r => [r] | None => [] end.

(** A run in which button 1 is pressed only while nothing is selected. *)
Fixpoint disciplined (s : Session) (events : list Event) : Prop :=
  match events with
  | [] => True
  | event :: events' =>
      (∀ pos, event = MOUSEBUTTONDOWN 1 pos → selected_piece s = None) ∧
      ∀ s', handle_event s event = Ok s' → disciplined s' events'
  end.

(** * Proofs *)

(** ** Loops that append *)

Section Loops.

Context {A B : Type}.

Lemma for_each_app (items1 items2 : list A) (body : A → B → result B) st :
  for_each (items1 ++ items2) body st =
  st' ← for_each items1 body st; for_each items2 body st'.
Proof.
  revert st. induction items1 as [|a items1 IH]; intros st; simpl; [done|].
  destruct (body a st) as [st'|e]; simpl; [apply IH|done].
Qed.

(** A loop whose body appends [g a] to the list built so far appends the
    blocks in the order of the items. *)
Lemma for_each_append (items : list A) (body : A → list B → result (list B))
    (g : A → list B) (acc : list B) :
  (∀ a acc', a ∈ items → body a acc' = Ok (acc' ++ g a)) →
  for_each items body acc = Ok (acc ++ (items ≫= g)).
Proof.
  revert acc. induction items as [|a items IH]; intros acc Hbody; simpl.
  - by rewrite app_nil_r.
  - rewrite Hbody by left. simpl. rewrite IH.
    + by rewrite <- app_assoc.
    + intros a' acc' Ha'. apply Hbody. by right.
Qed.

Lemma bind_singleton_fmap (f : A → B) (items : list A) :
  (items ≫= λ a, [f a]) = f <$> items.
Proof. induction items as [|a items IH]; csimpl; [done|]. by rewrite IH. Qed.

End Loops.

(** ** Lists laid out as a grid *)

Section Grid.

Context {A B C : Type} (f : A → B → C).

Lemma grid_length (rws : list A) (cls : list B) :
  length (rws ≫= λ a, f a <$> cls) = (length rws * length cls)%nat.
Proof.
  induction rws as [|a rws IH]; csimpl; [done|].
  rewrite length_app, length_fmap, IH. done.
Qed.

Lemma grid_lookup (rws : list A) (cls : list B) i j a b :
  rws !! i = Some a → cls !! j = Some b →
  (rws ≫= λ a, f a <$> cls) !! (i * length cls + j)%nat = Some (f a b).
Proof.
  revert i. induction rws as [|a' rws IH]; intros i Hi Hj; [done|].
  destruct i as [|i]; csimpl in *.
  - injection Hi as ->. rewrite lookup_app_l.
    + by rewrite list_lookup_fmap, Hj.
    + rewrite length_fmap. by eapply lookup_lt_Some.
  - rewrite lookup_app_r; rewrite length_fmap; [|lia].
    replace (length cls + i * length cls + j - length cls)%nat
      with (i * length cls + j)%nat by lia.
    by apply IH.
Qed.

End Grid.

Lemma range_lookup (n : Z) (i : nat) :
  Z.of_nat i < n → range n !! i = Some (Z.of_nat i).
Proof. intros Hi. apply lookup_seqZ. lia. Qed.

Lemma range_length (n : Z) : length (range n) = Z.to_nat n.
Proof. apply length_seqZ. Qed.

Lemma range_elem (n k : Z) : k ∈ range n ↔ 0 ≤ k < n.
Proof. unfold range. rewrite elem_of_seqZ. lia. Qed.

(** ** snap_to_place *)

(** The two outcomes of [snap_to_place]. *)
Lemma snap_to_place_cases (p : PuzzlePiece) :
  (Z.abs (Rect.x (rect p) - (correct_pos p).1) < 20 ∧
   Z.abs (Rect.y (rect p) - (correct_pos p).2) < 20 ∧
   snap_to_place p =
     (true, set_rect p (Rect.set_topleft (rect p) (correct_pos p)))) ∨
  (¬ (Z.abs (Rect.x (rect p) - (correct_pos p).1) < 20 ∧
      Z.abs (Rect.y (rect p) - (correct_pos p).2) < 20) ∧
   snap_to_place p = (false, p)).
Proof.
  destruct p as [img [cx cy] [x y w h] m].
  unfold snap_to_place, SNAP_DISTANCE; simpl.
  repeat case_bool_decide; simpl; [left|right..]; split_and?; (done || lia).
Qed.

Lemma snap_to_place_moving (p : PuzzlePiece) :
  moving (snap_to_place p).2 = moving p.
Proof. by destruct (snap_to_place_cases p) as [(_ & _ & ->)|[_ ->]]. Qed.

(** C1: [snap_to_place] returns true exactly when both deltas between the
    piece's top-left corner and its target are, in absolute value, strictly
    below 20; on true the top-left corner is the target (and nothing else
    of the piece changes), on false the piece is as it was. *)
Theorem snap_to_place_spec (p : PuzzlePiece) :
  ((snap_to_place p).1 = true ↔
     Z.abs (Rect.x (rect p) - (correct_pos p).1) < 20 ∧
     Z.abs (Rect.y (rect p) - (correct_pos p).2) < 20) ∧
  ((snap_to_place p).1 = true →
     Rect.topleft (rect (snap_to_place p).2) = correct_pos p ∧
     Rect.width (rect (snap_to_place p).2) = Rect.width (rect p) ∧
     Rect.height (rect (snap_to_place p).2) = Rect.height (rect p) ∧
     correct_pos (snap_to_place p).2 = correct_pos p ∧
     image (snap_to_place p).2 = image p ∧
     moving (snap_to_place p).2 = moving p) ∧
  ((snap_to_place p).1 = false → (snap_to_place p).2 = p).
Proof.
  destruct p as [img [cx cy] [x y w h] m].
  unfold snap_to_place, SNAP_DISTANCE; simpl.
  repeat case_bool_decide; simpl; repeat split; try done; try lia;
    intros; exfalso; lia.
Qed.

(** C9: a second [snap_to_place] right after the first returns the same
    boolean, and after a first success it leaves the position where the
    first call put it. *)
Theorem snap_to_place_twice (p : PuzzlePiece) :
  (snap_to_place (snap_to_place p).2).1 = (snap_to_place p).1 ∧
  ((snap_to_place p).1 = true →
     Rect.topleft (rect (snap_to_place (snap_to_place p).2).2) =
     Rect.topleft (rect (snap_to_place p).2)).
Proof.
  destruct p as [img [cx cy] [x y w h] m].
  unfold snap_to_place, SNAP_DISTANCE; simpl.
  repeat (case_bool_decide; simpl); try done; try lia.
Qed.

(** ** create_puzzle_pieces *)

Lemma create_cell_ok image start_pos pw ph rws cls row col acc :
  0 ≤ pw → 0 ≤ ph →
  cls * pw ≤ Surface.w image → rws * ph ≤ Surface.h image →
  0 ≤ row < rws → 0 ≤ col < cls →
  create_cell image start_pos pw ph row col acc =
  Ok (acc ++ [cell_piece image start_pos pw ph row col]).
Proof.
  intros Hpw Hph Hw Hh Hrow Hcol.
  unfold create_cell, Surface.subsurface; simpl.
  case_decide as Hout; [exfalso; nia|done].
Qed.

(** With at least one row and one column the factory never raises and
    returns the grid, whatever the size of the image. *)
Lemma create_puzzle_pieces_ok image grid_rows grid_cols start_pos :
  Surface.valid image → 1 ≤ grid_rows → 1 ≤ grid_cols →
  create_puzzle_pieces image grid_rows grid_cols start_pos =
  Ok (grid image start_pos (Surface.w image / grid_cols)
        (Surface.h image / grid_rows) grid_rows grid_cols).
Proof.
  intros [Hw Hh] Hrows Hcols.
  unfold create_puzzle_pieces, floordiv; simpl.
  repeat (case_decide; [lia|]); simpl.
  set (pw := Surface.w image / grid_cols).
  set (ph := Surface.h image / grid_rows).
  assert (0 ≤ pw) by (apply Z.div_pos; lia).
  assert (0 ≤ ph) by (apply Z.div_pos; lia).
  assert (grid_cols * pw ≤ Surface.w image) by (apply Z.mul_div_le; lia).
  assert (grid_rows * ph ≤ Surface.h image) by (apply Z.mul_div_le; lia).
  rewrite (for_each_append _ _
    (λ row, cell_piece image start_pos pw ph row <$> range grid_cols)); [done|].
  intros row acc Hrow%range_elem.
  rewrite (for_each_append _ _
    (λ col, [cell_piece image start_pos pw ph row col])).
  - by rewrite bind_singleton_fmap.
  - intros col acc' Hcol%range_elem. by eapply create_cell_ok.
Qed.

Lemma grid_size image start_pos pw ph grid_rows grid_cols :
  0 ≤ grid_rows → 0 ≤ grid_cols →
  length (grid image start_pos pw ph grid_rows grid_cols) =
  Z.to_nat (grid_rows * grid_cols).
Proof.
  intros Hrows Hcols. unfold grid.
  rewrite grid_length, !range_length. lia.
Qed.

Lemma grid_cell image start_pos pw ph grid_rows grid_cols row col :
  0 ≤ row < grid_rows → 0 ≤ col < grid_cols →
  grid image start_pos pw ph grid_rows grid_cols
    !! Z.to_nat (row * grid_cols + col) =
  Some (cell_piece image start_pos pw ph row col).
Proof.
  intros Hrow Hcol. unfold grid.
  replace (Z.to_nat (row * grid_cols + col))
    with (Z.to_nat row * length (range grid_cols) + Z.to_nat col)%nat
    by (rewrite range_length; nia).
  rewrite (grid_lookup _ _ _ _ _ row col).
  - done.
  - rewrite range_lookup by lia. f_equal; lia.
  - rewrite range_lookup by lia. f_equal; lia.
Qed.

(** Every element of the grid is the piece of some cell. *)
Lemma grid_inv image start_pos pw ph grid_rows grid_cols i p :
  0 ≤ grid_rows → 0 ≤ grid_cols →
  grid image start_pos pw ph grid_rows grid_cols !! i = Some p →
  ∃ row col, 0 ≤ row < grid_rows ∧ 0 ≤ col < grid_cols ∧
    i = Z.to_nat (row * grid_cols + col) ∧
    p = cell_piece image start_pos pw ph row col.
Proof.
  intros Hrows Hcols Hi.
  assert (i < Z.to_nat (grid_rows * grid_cols))%nat as Hlt.
  { rewrite <- (grid_size image start_pos pw ph) by done.
    by eapply lookup_lt_Some. }
  assert (0 < grid_cols) by nia.
  exists (Z.of_nat i / grid_cols), (Z.of_nat i `mod` grid_cols).
  assert (0 ≤ Z.of_nat i `mod` grid_cols < grid_cols)
    by (apply Z.mod_pos_bound; lia).
  assert (0 ≤ Z.of_nat i / grid_cols < grid_rows).
  { split; [apply Z.div_pos; lia|]. apply Z.div_lt_upper_bound; nia. }
  assert (Z.of_nat i =
          Z.of_nat i / grid_cols * grid_cols + Z.of_nat i `mod` grid_cols)
    as Heq by (rewrite Z.mul_comm; apply Z.div_mod; lia).
  split_and!; try lia.
  pose proof (grid_cell image start_pos pw ph grid_rows grid_cols
    (Z.of_nat i / grid_cols) (Z.of_nat i `mod` grid_cols)) as Hcell.
  rewrite <- Heq, Nat2Z.id in Hcell. rewrite Hcell in Hi by done.
  congruence.
Qed.

Lemma cell_piece_target img start_pos pw ph row col pos :
  Rect.collidepoint (target_rect (cell_piece img start_pos pw ph row col)) pos
    = true ↔
  start_pos.1 + col * pw ≤ pos.1 < start_pos.1 + col * pw + pw ∧
  start_pos.2 + row * ph ≤ pos.2 < start_pos.2 + row * ph + ph.
Proof.
  unfold Rect.collidepoint, target_rect, cell_piece; simpl.
  rewrite bool_decide_eq_true. lia.
Qed.

(** A coordinate of a strip of [n] cells of size [d] lies in exactly one
    cell. *)
Lemma strip_cell (n d v : Z) :
  0 < d → 0 ≤ v < n * d → 0 ≤ v / d < n ∧ v / d * d ≤ v < v / d * d + d.
Proof.
  intros Hd Hv.
  pose proof (Z.div_mod v d ltac:(lia)).
  pose proof (Z.mod_pos_bound v d Hd).
  assert (0 ≤ v / d) by (apply Z.div_pos; lia).
  assert (v / d < n) by (apply Z.div_lt_upper_bound; lia).
  lia.
Qed.

Lemma strip_unique (d k k' v : Z) :
  k * d ≤ v < k * d + d → k' * d ≤ v < k' * d + d → k = k'.
Proof. nia. Qed.

(** C2: for a grid of at least one row and one column whose pieces have a
    positive width and height, [create_puzzle_pieces] returns rows * cols
    pieces in row-major order; the piece of cell (row, col) has the size
    (pw, ph) and the target origin + (col * pw, row * ph); the target
    rectangles cover the region from the origin to
    origin + (cols * pw, rows * ph), no two of them share a point, and none
    leaves the region.  A 2 x 2 grid cut from a 100 x 100 image at origin
    (0, 0) gives four 50 x 50 pieces with targets (0,0), (50,0), (0,50),
    (50,50). *)
Theorem create_puzzle_pieces_tiling :
  (∀ img grid_rows grid_cols origin,
     1 ≤ grid_rows → 1 ≤ grid_cols →
     0 < Surface.w img / grid_cols → 0 < Surface.h img / grid_rows →
     let pw := Surface.w img / grid_cols in
     let ph := Surface.h img / grid_rows in
     let region :=
       Rect.mk origin.1 origin.2 (grid_cols * pw) (grid_rows * ph) in
     ∃ ps,
       create_puzzle_pieces img grid_rows grid_cols origin = Ok ps ∧
       length ps = Z.to_nat (grid_rows * grid_cols) ∧
       (∀ row col, 0 ≤ row < grid_rows → 0 ≤ col < grid_cols →
          ∃ p, ps !! Z.to_nat (row * grid_cols + col) = Some p ∧
               Surface.get_size (image p) = (pw, ph) ∧
               correct_pos p = (origin.1 + col * pw, origin.2 + row * ph)) ∧
       (∀ pos, Rect.collidepoint region pos = true →
          ∃ i p, ps !! i = Some p ∧
                 Rect.collidepoint (target_rect p) pos = true) ∧
       (∀ i j p q pos, ps !! i = Some p → ps !! j = Some q →
          Rect.collidepoint (target_rect p) pos = true →
          Rect.collidepoint (target_rect q) pos = true → i = j) ∧
       (∀ i p pos, ps !! i = Some p →
          Rect.collidepoint (target_rect p) pos = true →
          Rect.collidepoint region pos = true)) ∧
  create_puzzle_pieces (Surface.mk 100 100 0 0) 2 2 (0, 0) =
    Ok [ PuzzlePiece_init (Surface.mk 50 50 0 0) (0, 0);
         PuzzlePiece_init (Surface.mk 50 50 50 0) (50, 0);
         PuzzlePiece_init (Surface.mk 50 50 0 50) (0, 50);
         PuzzlePiece_init (Surface.mk 50 50 50 50) (50, 50) ].
Proof.
  split; [|reflexivity].
  intros img grid_rows grid_cols origin Hrows Hcols Hpw Hph pw ph region.
  assert (Surface.valid img) as Hvalid.
  { split.
    - destruct (decide (0 ≤ Surface.w img)) as [|Hneg]; [done|].
      pose proof (Z.div_lt_upper_bound (Surface.w img) grid_cols 0); lia.
    - destruct (decide (0 ≤ Surface.h img)) as [|Hneg]; [done|].
      pose proof (Z.div_lt_upper_bound (Surface.h img) grid_rows 0); lia. }
  eexists. split; [by apply create_puzzle_pieces_ok|].
  fold pw ph. split_and!.
  - apply grid_size; lia.
  - intros row col Hrow Hcol. eexists. split; [by apply grid_cell|done].
  - intros [px py] Hin%bool_decide_eq_true; simpl in Hin.
    destruct (strip_cell grid_cols pw (px - origin.1)) as [Hc Hcx]; [lia..|].
    destruct (strip_cell grid_rows ph (py - origin.2)) as [Hr Hry]; [lia..|].
    eexists _, _. split; [by apply grid_cell|].
    apply cell_piece_target; simpl. lia.
  - intros i j p q pos Hp Hq Hpin Hqin.
    apply grid_inv in Hp as (row & col & _ & _ & -> & ->); [|lia..].
    apply grid_inv in Hq as (row' & col' & _ & _ & -> & ->); [|lia..].
    apply cell_piece_target in Hpin, Hqin.
    assert (col = col')
      by (apply (strip_unique pw _ _ (pos.1 - origin.1)); lia).
    assert (row = row')
      by (apply (strip_unique ph _ _ (pos.2 - origin.2)); lia).
    by subst.
  - intros i p pos Hp Hpin.
    apply grid_inv in Hp as (row & col & Hrow & Hcol & _ & ->); [|lia..].
    apply cell_piece_target in Hpin.
    unfold region, Rect.collidepoint; simpl.
    rewrite bool_decide_eq_true.
    change (0 < pw) in Hpw. change (0 < ph) in Hph.
    clearbody pw ph.
    assert (0 ≤ col * pw ∧ (col + 1) * pw ≤ grid_cols * pw)
      by (split; [|apply Z.mul_le_mono_nonneg_r]; nia).
    assert (0 ≤ row * ph ∧ (row + 1) * ph ≤ grid_rows * ph)
      by (split; [|apply Z.mul_le_mono_nonneg_r]; nia).
    lia.
Qed.

(** The 100 x 100 image cut 2 x 2, as an instance of the general part. *)
Lemma create_puzzle_pieces_tiling_witness :
  ∃ ps, create_puzzle_pieces (Surface.mk 100 100 0 0) 2 2 (0, 0) = Ok ps ∧
        length ps = 4%nat.
Proof.
  destruct (proj1 create_puzzle_pieces_tiling (Surface.mk 100 100 0 0) 2 2
              (0, 0)) as (ps & Hps & Hlen & _); [by vm_compute..|].
  exists ps. split; [exact Hps|exact Hlen].
Defined.

(** C7, counterexample: three columns cut from an image two pixels wide
    give a piece width of zero, and the factory returns three pieces of
    width zero instead of failing. *)
Lemma create_puzzle_pieces_zero_width :
  Surface.w (Surface.mk 2 2 0 0) / 3 = 0 ∧
  create_puzzle_pieces (Surface.mk 2 2 0 0) 1 3 (50, 50) =
    Ok [ PuzzlePiece_init (Surface.mk 0 2 0 0) (50, 50);
         PuzzlePiece_init (Surface.mk 0 2 0 0) (50, 50);
         PuzzlePiece_init (Surface.mk 0 2 0 0) (50, 50) ].
Proof. split; reflexivity. Qed.

(** C7, amended: the factory checks no dimension.  With at least one row
    and one column it raises nothing and returns rows * cols pieces of
    width floor(image_width / cols) and height floor(image_height / rows),
    also when that width or height is zero. *)
Theorem create_puzzle_pieces_no_dimension_check img grid_rows grid_cols origin :
  Surface.valid img → 1 ≤ grid_rows → 1 ≤ grid_cols →
  ∃ ps, create_puzzle_pieces img grid_rows grid_cols origin = Ok ps ∧
        length ps = Z.to_nat (grid_rows * grid_cols) ∧
        ∀ p, p ∈ ps →
          Surface.get_size (image p) =
          (Surface.w img / grid_cols, Surface.h img / grid_rows).
Proof.
  intros Hvalid Hrows Hcols.
  eexists. split; [by apply create_puzzle_pieces_ok|]. split.
  - apply grid_size; lia.
  - intros p (i & Hi)%list_elem_of_lookup.
    apply grid_inv in Hi as (row & col & _ & _ & _ & ->); [done|lia..].
Qed.

Lemma create_puzzle_pieces_no_dimension_check_witness :
  ∃ ps, create_puzzle_pieces (Surface.mk 2 2 0 0) 1 3 (50, 50) = Ok ps ∧
        length ps = 3%nat ∧
        ∀ p, p ∈ ps → Surface.get_size (image p) = (0, 2).
Proof.
  apply (create_puzzle_pieces_no_dimension_check (Surface.mk 2 2 0 0) 1 3
           (50, 50)); by vm_compute.
Defined.

Lemma for_each_invariant {A S : Type} (I : S → Prop) (items : list A)
    (body : A → S → result S) st st' :
  (∀ a s s', body a s = Ok s' → I s → I s') →
  for_each items body st = Ok st' → I st → I st'.
Proof.
  intros Hbody. revert st.
  induction items as [|a items IH]; intros st Hrun Hst; simpl in Hrun.
  - by injection Hrun as <-.
  - destruct (body a st) as [s1|e] eqn:Hs1; simpl in Hrun; [|done].
    eapply IH; [done|]. by eapply Hbody.
Qed.

Lemma create_puzzle_pieces_fresh img grid_rows grid_cols start_pos ps :
  create_puzzle_pieces img grid_rows grid_cols start_pos = Ok ps →
  Forall fresh ps.
Proof.
  unfold create_puzzle_pieces; simpl.
  destruct (floordiv _ grid_cols) as [pw|]; simpl; [|done].
  destruct (floordiv _ grid_rows) as [ph|]; simpl; [|done].
  intros Hrun.
  eapply (for_each_invariant (Forall fresh)); [|exact Hrun|constructor].
  intros row acc acc' Hrow Hacc.
  eapply (for_each_invariant (Forall fresh)); [|exact Hrow|exact Hacc].
  intros col acc1 acc2 Hcell Hacc1. unfold create_cell in Hcell.
  destruct (Surface.subsurface _ _) as [sub|]; simpl in Hcell; [|done].
  injection Hcell as <-. apply Forall_app. split; [done|].
  by repeat constructor.
Qed.

Lemma snap_to_place_fresh p : fresh p → snap_to_place p = (true, p).
Proof.
  destruct p as [img [cx cy] r m]. intros [Hr _]. simpl in Hr. subst r.
  unfold snap_to_place, SNAP_DISTANCE; simpl.
  rewrite !Z.sub_diag. simpl. done.
Qed.

(** C10: a piece returned by [create_puzzle_pieces] has its rectangle's
    top-left corner on its target, so [snap_to_place] on it returns true
    and leaves the piece as it is. *)
Theorem create_puzzle_pieces_in_place img grid_rows grid_cols start_pos ps p :
  create_puzzle_pieces img grid_rows grid_cols start_pos = Ok ps →
  p ∈ ps →
  Rect.topleft (rect p) = correct_pos p ∧ snap_to_place p = (true, p).
Proof.
  intros Hps Hp.
  apply create_puzzle_pieces_fresh in Hps.
  rewrite Forall_forall in Hps. specialize (Hps p Hp).
  split; [|by apply snap_to_place_fresh].
  destruct Hps as [-> _]. by destruct (correct_pos p).
Qed.

Lemma create_puzzle_pieces_in_place_witness :
  let p := PuzzlePiece_init (Surface.mk 50 50 50 0) (50, 0) in
  Rect.topleft (rect p) = correct_pos p ∧ snap_to_place p = (true, p).
Proof.
  apply (create_puzzle_pieces_in_place (Surface.mk 100 100 0 0) 2 2 (0, 0)
           [ PuzzlePiece_init (Surface.mk 50 50 0 0) (0, 0);
             PuzzlePiece_init (Surface.mk 50 50 50 0) (50, 0);
             PuzzlePiece_init (Surface.mk 50 50 0 50) (0, 50);
             PuzzlePiece_init (Surface.mk 50 50 50 50) (50, 50) ]).
  - reflexivity.
  - apply list_elem_of_lookup. by exists 1%nat.
Defined.

(** ** shuffle_pieces *)

Lemma randint_range a b tape :
  a ≤ b → ∃ v, randint a b tape = Ok (v, tl tape) ∧ a ≤ v ≤ b.
Proof.
  intros Hab. unfold randint. case_decide; [lia|].
  eexists. split; [done|].
  pose proof (Z.mod_pos_bound (hd 0 tape) (b - a + 1)). lia.
Qed.

Lemma randint_empty a b tape : b < a → randint a b tape = Raise ValueError.
Proof. intros Hab. unfold randint. by case_decide. Qed.

(** Every value of the range is drawn from some tape. *)
Lemma randint_any a b v tape :
  a ≤ v ≤ b → randint a b ((v - a) :: tape) = Ok (v, tape).
Proof.
  intros Hv. unfold randint. case_decide; [lia|]. simpl.
  rewrite Z.mod_small by lia. do 2 f_equal. lia.
Qed.

Lemma shuffle_piece_ok screen_rect r heap tape p :
  heap !! r = Some p → fits screen_rect p →
  ∃ p', shuffle_piece screen_rect r (heap, tape) =
          Ok (<[r := p']> heap, tl (tl tape)) ∧
        scattered screen_rect p p'.
Proof.
  intros Hr [Hw Hh]. unfold shuffle_piece, deref. rewrite Hr. simpl.
  destruct (randint_range 0 (Rect.width screen_rect - Rect.width (rect p))
              tape) as (vx & -> & Hvx); [lia|]. simpl.
  destruct (randint_range 0 (Rect.height screen_rect - Rect.height (rect p))
              (tl tape)) as (vy & -> & Hvy); [lia|]. simpl.
  eexists. rewrite list_insert_insert_eq. split; [done|].
  unfold scattered; simpl. split_and!; (done || lia).
Qed.

Lemma shuffle_piece_too_large screen_rect r heap tape p :
  heap !! r = Some p → ¬ fits screen_rect p →
  shuffle_piece screen_rect r (heap, tape) = Raise ValueError.
Proof.
  intros Hr Hfit. unfold shuffle_piece, deref. rewrite Hr. simpl.
  destruct (decide (Rect.width (rect p) ≤ Rect.width screen_rect)) as [Hw|Hw].
  - destruct (randint_range 0 (Rect.width screen_rect - Rect.width (rect p))
                tape) as (vx & -> & Hvx); [lia|]. simpl.
    rewrite randint_empty; [done|]. unfold fits in Hfit. simpl. lia.
  - rewrite randint_empty; [done|]. lia.
Qed.

Lemma scattered_trans screen_rect p p1 p2 :
  scattered screen_rect p p1 → scattered screen_rect p1 p2 →
  scattered screen_rect p p2.
Proof.
  unfold scattered. intros (?&?&?&?&?&?&?) (?&?&?&?&?&?&?).
  split_and!; (lia || congruence).
Qed.

Lemma scattered_fits screen_rect p p' :
  scattered screen_rect p p' → fits screen_rect p → fits screen_rect p'.
Proof. unfold scattered, fits. lia. Qed.

Lemma shuffle_pieces_cons screen_rect r rest st :
  shuffle_pieces (r :: rest) screen_rect st =
  st' ← shuffle_piece screen_rect r st; shuffle_pieces rest screen_rect st'.
Proof. reflexivity. Qed.

Lemma shuffle_pieces_ok screen_rect pieces heap tape :
  (∀ r, r ∈ pieces → ∃ p, heap !! r = Some p ∧ fits screen_rect p) →
  ∃ heap' tape',
    shuffle_pieces pieces screen_rect (heap, tape) = Ok (heap', tape') ∧
    length heap' = length heap ∧
    (∀ r p, r ∈ pieces → heap !! r = Some p →
       ∃ p', heap' !! r = Some p' ∧ scattered screen_rect p p') ∧
    (∀ r, r ∉ pieces → heap' !! r = heap !! r).
Proof.
  revert heap tape.
  induction pieces as [|r rest IH]; intros heap tape Hfit.
  { exists heap, tape. split_and!; [done|done| |done].
    intros r p Hr. by apply elem_of_nil in Hr. }
  destruct (Hfit r) as (p & Hp & Hpfit); [left|].
  destruct (shuffle_piece_ok screen_rect r heap tape p Hp Hpfit)
    as (p1 & Hstep & Hp1).
  assert (r < length heap)%nat as Hlt by by eapply lookup_lt_Some.
  destruct (IH (<[r := p1]> heap) (tl (tl tape)))
    as (heap' & tape' & Hrun & Hlen & Hin & Hout).
  { intros r' Hr'. destruct (decide (r' = r)) as [->|Hne].
    - exists p1. rewrite list_lookup_insert_eq by done.
      split; [done|]. by eapply scattered_fits.
    - rewrite list_lookup_insert_ne by done. apply Hfit. by right. }
  exists heap', tape'. split_and!.
  - rewrite shuffle_pieces_cons, Hstep. exact Hrun.
  - by rewrite Hlen, length_insert.
  - intros r0 p0 Hr0 Hp0. destruct (decide (r0 ∈ rest)) as [Hrest|Hrest].
    + destruct (decide (r0 = r)) as [->|Hne].
      * assert (p0 = p) as -> by congruence.
        destruct (Hin r p1 Hrest) as (p' & Hp' & Hsc).
        { by rewrite list_lookup_insert_eq. }
        exists p'. split; [done|]. by eapply scattered_trans.
      * apply Hin; [done|]. by rewrite list_lookup_insert_ne.
    + apply elem_of_cons in Hr0 as [->|?]; [|done].
      assert (p0 = p) as -> by congruence.
      exists p1. rewrite Hout by done.
      by rewrite list_lookup_insert_eq.
  - intros r0 Hr0. apply not_elem_of_cons in Hr0 as [Hne Hrest].
    rewrite Hout by done. by rewrite list_lookup_insert_ne.
Qed.

Lemma shuffle_pieces_too_large screen_rect pieces heap tape :
  (∀ r, r ∈ pieces → is_Some (heap !! r)) →
  (∃ r p, r ∈ pieces ∧ heap !! r = Some p ∧ ¬ fits screen_rect p) →
  shuffle_pieces pieces screen_rect (heap, tape) = Raise ValueError.
Proof.
  revert heap tape.
  induction pieces as [|r rest IH]; intros heap tape Hvalid Hbad.
  { destruct Hbad as (r & p & Hr & _). by apply elem_of_nil in Hr. }
  destruct (Hvalid r) as [p Hp]; [left|].
  rewrite shuffle_pieces_cons.
  destruct (decide (Rect.width (rect p) ≤ Rect.width screen_rect ∧
                    Rect.height (rect p) ≤ Rect.height screen_rect))
    as [Hpfit|Hpfit].
  - destruct (shuffle_piece_ok screen_rect r heap tape p Hp Hpfit)
      as (p1 & -> & Hp1).
    apply IH.
    + intros r' Hr'. apply lookup_lt_is_Some. rewrite length_insert.
      apply lookup_lt_is_Some, Hvalid. by right.
    + destruct Hbad as (r0 & p0 & Hr0 & Hp0 & Hp0fit).
      assert (r0 ≠ r) as Hne.
      { intros ->. apply Hp0fit. by assert (p0 = p) as -> by congruence. }
      exists r0, p0. split_and!; [|by rewrite list_lookup_insert_ne|done].
      apply elem_of_cons in Hr0 as [?|?]; done.
  - by rewrite (shuffle_piece_too_large _ _ _ _ p).
Qed.

(** C8, counterexample: a piece 20 wide on a screen 10 wide; the range of
    [random.randint] is empty and the call raises. *)
Lemma shuffle_pieces_raises :
  shuffle_pieces [0%nat] (Rect.mk 0 0 10 10)
    ([PuzzlePiece_init (Surface.mk 20 5 0 0) (50, 50)], [7; 3]) =
  Raise ValueError.
Proof. reflexivity. Qed.

(** C8, amended: when every piece of the list fits into the bounds, the
    randomizer raises nothing and leaves each piece of the list with its
    top-left corner in [0, bounds.width - piece.width] x
    [0, bounds.height - piece.height], so that the whole piece lies within
    the bounds, its size and its other fields as they were, and the pieces
    outside the list untouched.  Nothing is clamped: when a piece of the
    list is wider or higher than the bounds, [random.randint] raises
    ValueError. *)
Theorem shuffle_pieces_spec pieces screen_rect heap tape :
  (∀ r, r ∈ pieces → is_Some (heap !! r)) →
  ((∀ r p, r ∈ pieces → heap !! r = Some p → fits screen_rect p) →
   ∃ heap' tape',
     shuffle_pieces pieces screen_rect (heap, tape) = Ok (heap', tape') ∧
     length heap' = length heap ∧
     (∀ r p, r ∈ pieces → heap !! r = Some p →
        ∃ p', heap' !! r = Some p' ∧ scattered screen_rect p p') ∧
     (∀ r, r ∉ pieces → heap' !! r = heap !! r)) ∧
  ((∃ r p, r ∈ pieces ∧ heap !! r = Some p ∧ ¬ fits screen_rect p) →
   shuffle_pieces pieces screen_rect (heap, tape) = Raise ValueError).
Proof.
  intros Hvalid. split.
  - intros Hfit. apply shuffle_pieces_ok.
    intros r Hr. destruct (Hvalid r Hr) as [p Hp]. eauto.
  - by apply shuffle_pieces_too_large.
Qed.

Lemma shuffle_pieces_spec_witness :
  ∃ heap' tape',
    shuffle_pieces [0%nat; 1%nat] (Rect.mk 0 0 800 600)
      ([PuzzlePiece_init (Surface.mk 50 50 0 0) (50, 50);
        PuzzlePiece_init (Surface.mk 50 50 50 0) (100, 50)],
       [1234; 77; 5; 2000]) = Ok (heap', tape') ∧
    length heap' = 2%nat.
Proof.
  destruct (shuffle_pieces_spec [0%nat; 1%nat] (Rect.mk 0 0 800 600)
              [PuzzlePiece_init (Surface.mk 50 50 0 0) (50, 50);
               PuzzlePiece_init (Surface.mk 50 50 50 0) (100, 50)]
              [1234; 77; 5; 2000]) as [Hok _].
  - intros r Hr. apply lookup_lt_is_Some. simpl.
    apply list_elem_of_lookup in Hr as [i Hi].
    destruct i as [|[|i]]; simpl in Hi; [injection Hi as <-; lia..|done].
  - destruct Hok as (heap' & tape' & Hrun & Hlen & _).
    + intros r p Hr Hp.
      apply list_elem_of_lookup in Hr as [i Hi].
      destruct i as [|[|i]]; simpl in Hi; [| |done];
        injection Hi as <-; injection Hp as <-; by vm_compute.
    + exists heap', tape'. split; [exact Hrun|exact Hlen].
Defined.

(** ** The drag controller *)

Lemma list_remove_app (l1 l2 : list nat) r :
  r ∉ l1 → list_remove r (l1 ++ r :: l2) = Ok (l1 ++ l2).
Proof.
  induction l1 as [|a l1 IH]; intros Hr; simpl.
  - by rewrite decide_True.
  - apply not_elem_of_cons in Hr as [Hne Hr].
    rewrite decide_False by done. by rewrite IH.
Qed.

(** What [l.remove(r)] returns when it returns. *)
Lemma list_remove_inv (l l' : list nat) r :
  list_remove r l = Ok l' →
  ∃ l1 l2, l = l1 ++ r :: l2 ∧ l' = l1 ++ l2 ∧ r ∉ l1.
Proof.
  revert l'. induction l as [|a l IH]; intros l' Hrm; simpl in Hrm; [done|].
  case_decide as Ha.
  - injection Hrm as <-. subst a. exists [], l. split_and!; [done..|].
    apply not_elem_of_nil.
  - destruct (list_remove r l) as [l''|] eqn:Hl; simpl in Hrm; [|done].
    injection Hrm as <-.
    destruct (IH l'' eq_refl) as (l1 & l2 & -> & -> & Hr).
    exists (a :: l1), l2. split_and!; [done..|].
    apply not_elem_of_cons. by split.
Qed.

Lemma mousedown_loop_miss todo pos s :
  all_miss (heap s) pos todo → mousedown_loop todo pos s = Ok s.
Proof.
  induction todo as [|r todo IH]; intros Hmiss; simpl; [done|].
  destruct (Hmiss r) as (p & Hp & Hcol); [left|].
  unfold deref. rewrite Hp. simpl. rewrite Hcol.
  apply IH. intros r' Hr'. apply Hmiss. by right.
Qed.

Lemma mousedown_loop_hit todo1 r todo2 pos s piece before after :
  all_miss (heap s) pos todo1 →
  heap s !! r = Some piece → Rect.collidepoint (rect piece) pos = true →
  pieces s = before ++ r :: after → r ∉ before →
  mousedown_loop (todo1 ++ r :: todo2) pos s =
  Ok (picked_up s pos before r after piece).
Proof.
  intros Hmiss Hr Hcol Hpieces Hbefore.
  induction todo1 as [|r' todo1 IH]; simpl.
  - unfold deref. rewrite Hr. simpl. rewrite Hcol, Hpieces.
    rewrite list_remove_app by done. simpl.
    unfold picked_up. by rewrite <- app_assoc.
  - destruct (Hmiss r') as (p' & Hp' & Hcol'); [left|].
    unfold deref. rewrite Hp'. simpl. rewrite Hcol'.
    apply IH. intros r0 Hr0. apply Hmiss. by right.
Qed.

(** The two ways the loop can end. *)
Lemma mousedown_loop_inv todo pos s s' :
  mousedown_loop todo pos s = Ok s' →
  s' = s ∨
  ∃ r piece before after,
    r ∈ todo ∧ heap s !! r = Some piece ∧
    Rect.collidepoint (rect piece) pos = true ∧
    pieces s = before ++ r :: after ∧ (r ∉ before) ∧
    s' = picked_up s pos before r after piece.
Proof.
  induction todo as [|r todo IH]; simpl; intros Hrun.
  - left. by injection Hrun.
  - unfold deref in Hrun.
    destruct (heap s !! r) as [piece|] eqn:Hr; simpl in Hrun; [|done].
    destruct (Rect.collidepoint (rect piece) pos) eqn:Hcol.
    + destruct (list_remove r (pieces s)) as [ps'|] eqn:Hrm;
        simpl in Hrun; [|done].
      apply list_remove_inv in Hrm as (before & after & Hps & -> & Hbefore).
      right. exists r, piece, before, after.
      split_and!; [by left|done..|].
      injection Hrun as <-. unfold picked_up. by rewrite <- app_assoc.
    + destruct (IH Hrun) as [Hs'|Hpick]; [by left|].
      destruct Hpick as (r0 & p0 & b & a & Hr0 & H).
      right. exists r0, p0, b, a. split; [by right|done].
Qed.

Lemma picked_up_perm (before after : list nat) r :
  before ++ after ++ [r] ≡ₚ before ++ r :: after.
Proof. apply Permutation_app_head, (Permutation_app_comm after [r]). Qed.

Lemma mousedown_loop_total todo pos s :
  wf_session s → (∀ r, r ∈ todo → r ∈ pieces s) →
  ∃ s', mousedown_loop todo pos s = Ok s'.
Proof.
  intros [Hnd Hvalid].
  induction todo as [|r todo IH]; intros Hsub; simpl; [by eexists|].
  destruct (Hvalid r) as [piece Hr]; [apply Hsub; left|].
  unfold deref. rewrite Hr. simpl.
  destruct (Rect.collidepoint (rect piece) pos).
  - destruct (list_elem_of_split_l (pieces s) r)
      as (before & after & Hps & Hbefore); [apply Hsub; left|].
    rewrite Hps, list_remove_app by done. by eexists.
  - apply IH. intros r' Hr'. apply Hsub. by right.
Qed.

Lemma picked_up_inv s pos before r after piece :
  wf_session s → pieces s = before ++ r :: after →
  heap s !! r = Some piece →
  session_inv (picked_up s pos before r after piece).
Proof.
  intros [Hnd Hvalid] Hps Hr.
  assert (r < length (heap s))%nat as Hlt by by eapply lookup_lt_Some.
  split; [split|]; simpl.
  - by rewrite picked_up_perm, <- Hps.
  - intros r' Hr'. apply list_lookup_insert_is_Some, Hvalid.
    by rewrite Hps, <- picked_up_perm.
  - intros r' [= <-]. split.
    + rewrite picked_up_perm. apply elem_of_app. right. left.
    + exists (set_moving piece true).
      by rewrite list_lookup_insert_eq.
Qed.

(** Every event takes a session that satisfies the invariant to a session
    that satisfies it; in particular no event raises. *)
Lemma handle_event_inv s event :
  session_inv s → ∃ s', handle_event s event = Ok s' ∧ session_inv s'.
Proof.
  intros Hinv. pose proof Hinv as [Hwf Hsel].
  destruct event as [|button pos|pos|button pos|]; simpl.
  - eexists. split; [done|]. by split.
  - case_decide; [|by exists s].
    destruct (mousedown_loop_total (reverse (pieces s)) pos s Hwf)
      as [s' Hs']; [intros r Hr; by apply elem_of_reverse|].
    exists s'. split; [done|].
    apply mousedown_loop_inv in Hs' as [->|Hpick]; [done|].
    destruct Hpick as (r & piece & before & after & _ & Hr & _ & Hps & _ & ->).
    by apply picked_up_inv.
  - destruct (selected_piece s) as [r|] eqn:Hr; [|by exists s].
    destruct (Hsel r eq_refl) as (Hin & piece & Hpiece & Hmov).
    unfold deref. rewrite Hpiece. simpl. rewrite Hmov.
    eexists. split; [done|].
    assert (r < length (heap s))%nat by by eapply lookup_lt_Some.
    destruct Hwf as [Hnd Hvalid]. split; [split|]; simpl; [done| |].
    + intros r' Hr'. by apply list_lookup_insert_is_Some, Hvalid.
    + intros r' [= <-]. split; [done|].
      eexists. by rewrite list_lookup_insert_eq.
  - case_decide; [|by exists s].
    destruct (selected_piece s) as [r|] eqn:Hr; [|by exists s].
    destruct (Hsel r eq_refl) as (Hin & piece & Hpiece & Hmov).
    unfold deref. rewrite Hpiece. simpl.
    eexists. split; [done|].
    destruct Hwf as [Hnd Hvalid]. split; [split|]; simpl; [done| |done].
    intros r' Hr'. by apply list_lookup_insert_is_Some, Hvalid.
  - by exists s.
Qed.

Lemma run_events_inv events s :
  session_inv s → ∃ s', run_events s events = Ok s' ∧ session_inv s'.
Proof.
  revert s. induction events as [|event events IH]; intros s Hinv.
  - by exists s.
  - destruct (handle_event_inv s event Hinv) as (s1 & Hs1 & Hinv1).
    destruct (IH s1 Hinv1) as (s' & Hs' & Hinv').
    exists s'. split; [|done].
    unfold run_events in *. simpl. by rewrite Hs1.
Qed.

Lemma initial_inv s : initial s → session_inv s.
Proof. intros (Hwf & Hsel & _). split; [done|]. by rewrite Hsel. Qed.

(** C4: a press of button 1 while nothing is selected visits the render
    list from its end; the last piece of the list whose rectangle contains
    the pointer becomes the selected piece, the grab offset is the pointer
    position minus the top-left corner of the piece, the piece's [moving]
    flag is set, nothing else of the heap changes, and the piece moves to
    the end of the render list, where the next press tests it first; when
    no piece contains the pointer the session is unchanged. *)
Theorem mousedown_picks_topmost s pos :
  wf_session s → selected_piece s = None →
  (∀ before r after piece,
     pieces s = before ++ r :: after →
     heap s !! r = Some piece →
     Rect.collidepoint (rect piece) pos = true →
     (∀ r' p', r' ∈ after → heap s !! r' = Some p' →
        Rect.collidepoint (rect p') pos = false) →
     handle_event s (MOUSEBUTTONDOWN 1 pos) =
       Ok (mkSession (<[r := set_moving piece true]> (heap s))
                     (before ++ after ++ [r]) (Some r)
                     (pos.1 - Rect.x (rect piece))
                     (pos.2 - Rect.y (rect piece)) (running s)) ∧
     head (reverse (before ++ after ++ [r])) = Some r) ∧
  ((∀ r p, r ∈ pieces s → heap s !! r = Some p →
      Rect.collidepoint (rect p) pos = false) →
   handle_event s (MOUSEBUTTONDOWN 1 pos) = Ok s).
Proof.
  intros [Hnd Hvalid] Hidle. split.
  - intros before r after piece Hps Hr Hcol Hafter. split.
    + cbn [handle_event]. rewrite decide_True by done.
      rewrite Hps, reverse_app, reverse_cons, <- app_assoc. simpl.
      rewrite (mousedown_loop_hit _ _ _ _ _ piece before after); try done.
      * intros r' Hr'. rewrite elem_of_reverse in Hr'.
        destruct (Hvalid r') as [p' Hp'].
        { rewrite Hps, elem_of_app, elem_of_cons. auto. }
        exists p'. split; [done|]. by eapply Hafter.
      * rewrite Hps in Hnd. apply NoDup_app in Hnd as (_ & Hdisj & _).
        intros Hin. apply (Hdisj r Hin). left.
    + by rewrite !app_assoc, reverse_app.
  - intros Hmiss. cbn [handle_event]. rewrite decide_True by done.
    apply mousedown_loop_miss. intros r Hr. rewrite elem_of_reverse in Hr.
    destruct (Hvalid r Hr) as [p Hp]. exists p. split; [done|].
    by eapply Hmiss.
Qed.

(** C6: a release of button 1 while a piece is selected clears the piece's
    [moving] flag, runs [snap_to_place] on it, clears the selection, and
    does so whether or not the piece snapped; a piece that does not snap
    keeps its rectangle, a piece that snaps sits on its target. *)
Theorem mouseup_releases s r piece pos :
  selected_piece s = Some r → heap s !! r = Some piece →
  let snapped := snap_to_place (set_moving piece false) in
  handle_event s (MOUSEBUTTONUP 1 pos) =
    Ok (mkSession (<[r := snapped.2]> (heap s)) (pieces s) None
                  (offset_x s) (offset_y s) (running s)) ∧
  moving snapped.2 = false ∧
  (snapped.1 = false → rect snapped.2 = rect piece) ∧
  (snapped.1 = true → Rect.topleft (rect snapped.2) = correct_pos piece).
Proof.
  intros Hsel Hr snapped. split_and!.
  - cbn [handle_event]. rewrite decide_True by done.
    rewrite Hsel. unfold deref. by rewrite Hr.
  - unfold snapped. by rewrite snap_to_place_moving.
  - unfold snapped.
    by destruct (snap_to_place_cases (set_moving piece false))
      as [(_ & _ & ->)|[_ ->]].
  - unfold snapped.
    destruct (snap_to_place_cases (set_moving piece false))
      as [(_ & _ & ->)|[_ ->]]; [|done].
    intros _. simpl. by destruct (correct_pos piece).
Qed.

Lemma three_pieces_wf : wf_session three_pieces.
Proof.
  split.
  - by apply (bool_decide_unpack _).
  - intros r [i Hi]%list_elem_of_lookup.
    destruct i as [|[|[|i]]]; simpl in Hi; [injection Hi as <-; by eexists..|done].
Qed.

Lemma mousedown_picks_topmost_witness :
  handle_event three_pieces (MOUSEBUTTONDOWN 1 (40, 40)) =
  Ok (mkSession
        [ mkPiece (Surface.mk 50 50 0 0) (50, 50) (Rect.mk 0 0 50 50) false;
          mkPiece (Surface.mk 50 50 50 0) (100, 50) (Rect.mk 30 30 50 50) true;
          mkPiece (Surface.mk 50 50 100 0) (150, 50) (Rect.mk 200 0 50 50)
                  false ]
        [0; 2; 1]%nat (Some 1%nat) 10 10 true).
Proof.
  destruct (mousedown_picks_topmost three_pieces (40, 40) three_pieces_wf
              eq_refl) as [Hhit _].
  destruct (Hhit [0%nat] 1%nat [2%nat]
              (mkPiece (Surface.mk 50 50 50 0) (100, 50) (Rect.mk 30 30 50 50)
                       false)) as [Hrun _].
  - reflexivity.
  - reflexivity.
  - reflexivity.
  - intros r' p' Hr'. apply list_elem_of_singleton in Hr' as ->.
    intros [= <-]. reflexivity.
  - exact Hrun.
Defined.

Lemma mouseup_releases_witness :
  handle_event
    (mkSession [mkPiece (Surface.mk 50 50 0 0) (50, 50) (Rect.mk 48 51 50 50)
                        true;
                mkPiece (Surface.mk 50 50 50 0) (50, 50) (Rect.mk 80 80 50 50)
                        false]
               [1; 0]%nat (Some 0%nat) 5 5 true)
    (MOUSEBUTTONUP 1 (53, 56)) =
  Ok (mkSession [mkPiece (Surface.mk 50 50 0 0) (50, 50) (Rect.mk 50 50 50 50)
                         false;
                 mkPiece (Surface.mk 50 50 50 0) (50, 50)
                         (Rect.mk 80 80 50 50) false]
                [1; 0]%nat None 5 5 true).
Proof.
  apply (mouseup_releases
           (mkSession
              [mkPiece (Surface.mk 50 50 0 0) (50, 50) (Rect.mk 48 51 50 50)
                       true;
               mkPiece (Surface.mk 50 50 50 0) (50, 50) (Rect.mk 80 80 50 50)
                       false]
              [1; 0]%nat (Some 0%nat) 5 5 true)
           0%nat
           (mkPiece (Surface.mk 50 50 0 0) (50, 50) (Rect.mk 48 51 50 50) true)
           (53, 56)); reflexivity.
Defined.

(** A press of button 1 that leaves a piece selected picked that piece
    up. *)
Lemma mousedown_selects s pos s1 r piece :
  selected_piece s = None →
  handle_event s (MOUSEBUTTONDOWN 1 pos) = Ok s1 →
  selected_piece s1 = Some r → heap s !! r = Some piece →
  ∃ before after,
    pieces s = before ++ r :: after ∧
    Rect.collidepoint (rect piece) pos = true ∧
    s1 = picked_up s pos before r after piece.
Proof.
  intros Hidle Hrun Hsel Hr. cbn [handle_event] in Hrun.
  rewrite decide_True in Hrun by done.
  apply mousedown_loop_inv in Hrun as [->|Hpick]; [congruence|].
  destruct Hpick as (r0 & p0 & before & after & _ & Hr0 & Hcol & Hps & _ & ->).
  simpl in Hsel. injection Hsel as ->.
  assert (p0 = piece) as -> by congruence.
  by exists before, after.
Qed.

(** C5: a pointer move while a piece is selected puts the top-left corner
    of the selected piece at the pointer position minus the grab offset
    and keeps the selection; the offset being the one captured by the
    press, the point of the piece that was grabbed stays under the
    pointer; a piece grabbed at (5, 5) from its top-left corner and moved
    to (100, 100) has its top-left corner at (95, 95). *)
Theorem mousemotion_tracks_grab :
  (∀ s0 events s r pos,
     initial s0 → run_events s0 events = Ok s → selected_piece s = Some r →
     ∃ piece, heap s !! r = Some piece ∧
       handle_event s (MOUSEMOTION pos) =
       Ok (mkSession
             (<[r := set_rect piece
                       (Rect.set_topleft (rect piece)
                          (pos.1 - offset_x s, pos.2 - offset_y s))]> (heap s))
             (pieces s) (Some r) (offset_x s) (offset_y s) (running s))) ∧
  (∀ s grab s1 r piece pos s2,
     wf_session s → selected_piece s = None →
     handle_event s (MOUSEBUTTONDOWN 1 grab) = Ok s1 →
     selected_piece s1 = Some r → heap s !! r = Some piece →
     handle_event s1 (MOUSEMOTION pos) = Ok s2 →
     selected_piece s2 = Some r ∧
     ∃ piece2, heap s2 !! r = Some piece2 ∧
       Rect.topleft (rect piece2) =
         (pos.1 - (grab.1 - Rect.x (rect piece)),
          pos.2 - (grab.2 - Rect.y (rect piece))) ∧
       (grab = (Rect.x (rect piece) + 5, Rect.y (rect piece) + 5) →
        pos = (100, 100) → Rect.topleft (rect piece2) = (95, 95))).
Proof.
  split.
  - intros s0 events s r pos Hinit Hrun Hsel.
    destruct (run_events_inv events s0 (initial_inv s0 Hinit))
      as (s' & Hs' & [_ Hinv]).
    assert (s' = s) as -> by congruence.
    destruct (Hinv r Hsel) as (_ & piece & Hpiece & Hmov).
    exists piece. split; [done|].
    cbn [handle_event]. rewrite Hsel. unfold deref. rewrite Hpiece. simpl.
    by rewrite Hmov.
  - intros s grab s1 r piece pos s2 Hwf Hidle Hdown Hsel Hr Hmove.
    destruct (mousedown_selects s grab s1 r piece Hidle Hdown Hsel Hr)
      as (before & after & Hps & Hcol & ->).
    assert (r < length (heap s))%nat as Hlt by by eapply lookup_lt_Some.
    cbn [handle_event picked_up selected_piece heap] in Hmove.
    unfold deref in Hmove.
    rewrite list_lookup_insert_eq in Hmove by done. simpl in Hmove.
    injection Hmove as <-. simpl. split; [done|].
    eexists. rewrite list_lookup_insert_eq by by rewrite length_insert.
    split; [done|]. split; [done|].
    intros -> ->. simpl. unfold Rect.topleft; simpl. f_equal; lia.
Qed.

Lemma mousemotion_tracks_grab_witness :
  ∃ s1 s2 piece2,
    handle_event three_pieces (MOUSEBUTTONDOWN 1 (35, 35)) = Ok s1 ∧
    handle_event s1 (MOUSEMOTION (100, 100)) = Ok s2 ∧
    heap s2 !! 1%nat = Some piece2 ∧
    Rect.topleft (rect piece2) = (95, 95).
Proof.
  eexists _, _.
  destruct (proj2 mousemotion_tracks_grab three_pieces (35, 35) _ 1%nat
              (mkPiece (Surface.mk 50 50 50 0) (100, 50) (Rect.mk 30 30 50 50)
                       false)
              (100, 100) _ three_pieces_wf eq_refl eq_refl eq_refl eq_refl
              eq_refl) as (_ & piece2 & Hp2 & _ & H95).
  exists piece2. split_and!; [reflexivity|reflexivity|exact Hp2|].
  apply H95; reflexivity.
Defined.

(** ** The session that main sets up *)

Lemma shuffle_piece_keeps screen r st st' (n : nat) :
  shuffle_piece screen r st = Ok st' →
  (length st.1 = n ∧ ∀ r' p, st.1 !! r' = Some p → moving p = false) →
  length st'.1 = n ∧ ∀ r' p, st'.1 !! r' = Some p → moving p = false.
Proof.
  destruct st as [hp tape]. unfold shuffle_piece, deref, randint. simpl.
  destruct (hp !! r) as [piece|] eqn:Hr; simpl; [|done].
  repeat (case_decide; simpl; try done).
  intros [= <-] [Hlen Hmov]. simpl. split.
  - by rewrite !length_insert.
  - intros r' p Hp.
    apply list_lookup_insert_Some in Hp as [(_ & <- & _)|[_ Hp]].
    { simpl. by eapply Hmov. }
    apply list_lookup_insert_Some in Hp as [(_ & <- & _)|[_ Hp]].
    { simpl. by eapply Hmov. }
    by eapply Hmov.
Qed.

(** [setup] leaves an initial session. *)
Lemma setup_initial img screen tape s :
  setup img screen tape = Ok s → initial s.
Proof.
  unfold setup.
  destruct (create_puzzle_pieces _ _ _ _) as [objs|] eqn:Hobjs; simpl; [|done].
  destruct (shuffle_pieces _ _ _) as [[hp tape']|] eqn:Hsh; simpl; [|done].
  intros [= <-].
  apply create_puzzle_pieces_fresh in Hobjs.
  assert (length hp = length objs ∧
          ∀ r' p, hp !! r' = Some p → moving p = false) as [Hlen Hmov].
  { apply (for_each_invariant
             (λ st, length st.1 = length objs ∧
                    ∀ r' p, st.1 !! r' = Some p → moving p = false)
             _ _ _ (hp, tape') (λ r st st', shuffle_piece_keeps screen r st st' _)
             Hsh).
    split; [done|]. intros r' p Hp.
    by destruct (Forall_lookup_1 _ _ _ _ Hobjs Hp). }
  split_and!; simpl; [split; simpl| |]; try done.
  - apply NoDup_seq.
  - intros r Hr%elem_of_seq. apply lookup_lt_is_Some. lia.
Qed.

(** ** Two presses without a release *)

(** C3, evaluated: from the session that [setup] builds for the 300 x 300
    image, a press on the first piece followed, with no release in
    between, by a press on the second piece leaves both pieces with
    [moving] set; the release that follows clears the flag of the second
    piece only, so the first piece stays flagged while nothing is
    selected. *)
Theorem two_presses_two_dragging :
  ∃ s0 s2 s3,
    setup demo_image screen_rect demo_tape = Ok s0 ∧ initial s0 ∧
    run_events s0 [MOUSEBUTTONDOWN 1 (10, 10); MOUSEBUTTONDOWN 1 (210, 10)]
      = Ok s2 ∧
    dragging s2 = [0; 1]%nat ∧ selected_piece s2 = Some 1%nat ∧
    handle_event s2 (MOUSEBUTTONUP 1 (210, 10)) = Ok s3 ∧
    dragging s3 = [0%nat] ∧ selected_piece s3 = None.
Proof.
  eexists _, _, _.
  split; [by vm_compute|]. split; [by apply (setup_initial demo_image screen_rect demo_tape)|].
  split; [by vm_compute|]. split; [by vm_compute|]. split; [done|].
  split; [by vm_compute|]. split; by vm_compute.
Qed.

(** ** Runs that press only while nothing is selected *)

Lemma filter_none {A} (P : A → Prop) `{!∀ x, Decision (P x)} (l : list A) :
  (∀ x, x ∈ l → ¬ P x) → filter P l = [].
Proof.
  intros Hnone. destruct (filter P l) as [|x l'] eqn:Hf; [done|].
  assert (x ∈ filter P l) as [Hx Hin]%list_elem_of_filter
    by (rewrite Hf; left).
  by destruct (Hnone x Hin).
Qed.

Lemma filter_nil_none {A} (P : A → Prop) `{!∀ x, Decision (P x)}
    (l : list A) x :
  filter P l = [] → x ∈ l → ¬ P x.
Proof.
  intros Hf Hin Hx.
  assert (x ∈ filter P l) as Hxf by by apply list_elem_of_filter.
  rewrite Hf in Hxf. by apply elem_of_nil in Hxf.
Qed.

Lemma is_moving_insert_ne hp r r' p :
  r' ≠ r → is_moving (<[r := p]> hp) r' = is_moving hp r'.
Proof. intros Hne. unfold is_moving. by rewrite list_lookup_insert_ne. Qed.

Lemma is_moving_insert_eq hp r p :
  (r < length hp)%nat → is_moving (<[r := p]> hp) r = moving p.
Proof. intros Hlt. unfold is_moving. by rewrite list_lookup_insert_eq. Qed.

(** Replacing a piece by one with the same flag changes no flag. *)
Lemma is_moving_insert_same hp r piece p r' :
  hp !! r = Some piece → moving p = moving piece →
  is_moving (<[r := p]> hp) r' = is_moving hp r'.
Proof.
  intros Hr Hmov. destruct (decide (r' = r)) as [->|Hne].
  - rewrite is_moving_insert_eq by by eapply lookup_lt_Some.
    unfold is_moving. by rewrite Hr.
  - by apply is_moving_insert_ne.
Qed.

Lemma picked_up_tidy s pos before r after piece :
  wf_session s → pieces s = before ++ r :: after →
  heap s !! r = Some piece → dragging s = [] →
  tidy (picked_up s pos before r after piece).
Proof.
  intros [Hnd Hvalid] Hps Hr Hnone.
  assert (r < length (heap s))%nat as Hlt by by eapply lookup_lt_Some.
  rewrite Hps in Hnd.
  apply NoDup_app in Hnd as (_ & Hdisj & [Hafter _]%NoDup_cons).
  unfold dragging in Hnone. rewrite Hps in Hnone.
  unfold tidy, dragging, picked_up; simpl.
  rewrite !filter_app.
  rewrite (filter_none _ before), (filter_none _ after); simpl.
  - apply filter_singleton_True; [done|].
    by rewrite is_moving_insert_eq.
  - intros x Hx. rewrite is_moving_insert_ne by (by intros ->).
    apply (filter_nil_none _ _ _ Hnone).
    rewrite elem_of_app, elem_of_cons. auto.
  - intros x Hx.
    rewrite is_moving_insert_ne by (intros ->; apply (Hdisj r Hx); left).
    apply (filter_nil_none _ _ _ Hnone).
    rewrite elem_of_app. auto.
Qed.

(** An event that is not a press of button 1 during a drag keeps the
    session tidy. *)
Lemma handle_event_tidy s event s' :
  session_inv s → tidy s →
  (∀ pos, event = MOUSEBUTTONDOWN 1 pos → selected_piece s = None) →
  handle_event s event = Ok s' → tidy s'.
Proof.
  intros [Hwf Hsel] Htidy Hpress.
  destruct event as [|button pos|pos|button pos|]; cbn [handle_event].
  - by intros [= <-].
  - case_decide as Hb; [subst button|by intros [= <-]].
    specialize (Hpress pos eq_refl). intros Hrun.
    apply mousedown_loop_inv in Hrun as [->|Hpick]; [done|].
    destruct Hpick as (r & piece & before & after & _ & Hr & _ & Hps & _ & ->).
    apply picked_up_tidy; try done.
    unfold tidy in Htidy. by rewrite Hpress in Htidy.
  - destruct (selected_piece s) as [r|] eqn:Hr; [|by intros [= <-]].
    destruct (Hsel r eq_refl) as (_ & piece & Hpiece & Hmov).
    unfold deref. rewrite Hpiece. simpl. rewrite Hmov. intros [= <-].
    unfold tidy in *. rewrite Hr in Htidy. simpl. rewrite <- Htidy.
    unfold dragging; simpl. apply list_filter_iff. intros x.
    by rewrite (is_moving_insert_same _ _ piece).
  - case_decide; [|by intros [= <-]].
    destruct (selected_piece s) as [r|] eqn:Hr; [|by intros [= <-]].
    destruct (Hsel r eq_refl) as (_ & piece & Hpiece & Hmov).
    unfold deref. rewrite Hpiece. simpl. intros [= <-].
    unfold tidy in *. rewrite Hr in Htidy. simpl.
    unfold dragging in *; simpl. apply filter_none. intros x Hx Hxmov.
    destruct (decide (x = r)) as [->|Hne].
    + rewrite is_moving_insert_eq in Hxmov by by eapply lookup_lt_Some.
      by rewrite snap_to_place_moving in Hxmov.
    + rewrite is_moving_insert_ne in Hxmov by done.
      assert (x ∈ [r]) as Hxr
        by (rewrite <- Htidy; by apply list_elem_of_filter).
      by apply list_elem_of_singleton in Hxr.
  - by intros [= <-].
Qed.

(** In a run that presses button 1 only while nothing is selected, the
    pieces flagged as moving are the selected piece and no other: at most
    one piece, and none while nothing is selected. *)
Lemma disciplined_tidy events s s' :
  session_inv s → tidy s → disciplined s events →
  run_events s events = Ok s' → session_inv s' ∧ tidy s'.
Proof.
  revert s. induction events as [|event events IH];
    intros s Hinv Htidy Hdisc Hrun.
  - injection Hrun as <-. by split.
  - destruct Hdisc as [Hpress Hnext].
    destruct (handle_event_inv s event Hinv) as (s1 & Hs1 & Hinv1).
    unfold run_events in Hrun. simpl in Hrun. rewrite Hs1 in Hrun.
    apply (IH s1); try done; [|by apply Hnext].
    by apply (handle_event_tidy s event s1).
Qed.

Lemma initial_tidy s : initial s → tidy s.
Proof.
  intros (_ & Hsel & Hmov). unfold tidy. rewrite Hsel.
  apply filter_none. intros r _. unfold is_moving.
  destruct (heap s !! r) as [p|] eqn:Hp; [|done].
  by rewrite (Hmov r p Hp).
Qed.

(** During a drag in such a run a move keeps the selected piece, which
    is the one piece flagged as moving. *)
Lemma disciplined_drag_same_piece s0 events s r pos s' :
  initial s0 → disciplined s0 events → run_events s0 events = Ok s →
  selected_piece s = Some r →
  handle_event s (MOUSEMOTION pos) = Ok s' →
  dragging s = [r] ∧ selected_piece s' = Some r ∧ dragging s' = [r].
Proof.
  intros Hinit Hdisc Hrun Hsel Hmove.
  destruct (disciplined_tidy events s0 s (initial_inv _ Hinit)
              (initial_tidy _ Hinit) Hdisc Hrun) as [Hinv Htidy].
  assert (tidy s') as Htidy'
    by (by apply (handle_event_tidy s (MOUSEMOTION pos) s')).
  assert (selected_piece s' = Some r) as Hsel'.
  { cbn [handle_event] in Hmove. rewrite Hsel in Hmove.
    destruct (deref (heap s) r) as [piece|]; simpl in Hmove; [|done].
    destruct (moving piece); by injection Hmove as <-. }
  unfold tidy in *. rewrite Hsel in Htidy. by rewrite Hsel' in Htidy'.
Qed.

(** * Further properties of the code *)

(** ** update_position *)

(** X1: [update_position] puts the centre of the piece on the given
    position and keeps its size, image, target and flag; a piece of
    positive width and height then contains the position. *)
Theorem update_position_centers (p : PuzzlePiece) (pos : Z * Z) :
  Rect.center (rect (update_position p pos)) = pos ∧
  same_piece p (update_position p pos) ∧
  moving (update_position p pos) = moving p ∧
  (0 < Rect.width (rect p) → 0 < Rect.height (rect p) →
   Rect.collidepoint (rect (update_position p pos)) pos = true).
Proof.
  destruct p as [img tgt [x y w h] m], pos as [px py].
  unfold update_position, Rect.center, Rect.collidepoint, same_piece; simpl.
  split_and!; try done.
  - f_equal; lia.
  - intros Hw Hh. apply bool_decide_eq_true.
    pose proof (Z.quot_pos w 2). pose proof (Z.quot_lt w 2).
    pose proof (Z.quot_pos h 2). pose proof (Z.quot_lt h 2). lia.
Qed.

(** ** snap_to_place *)

(** X2: [snap_to_place] moves a piece by less than SNAP_DISTANCE on each
    axis, if at all, and changes nothing but the position. *)
Theorem snap_to_place_short_move (p : PuzzlePiece) :
  Z.abs (Rect.x (rect (snap_to_place p).2) - Rect.x (rect p)) < SNAP_DISTANCE ∧
  Z.abs (Rect.y (rect (snap_to_place p).2) - Rect.y (rect p)) < SNAP_DISTANCE ∧
  same_piece p (snap_to_place p).2 ∧
  moving (snap_to_place p).2 = moving p.
Proof.
  unfold SNAP_DISTANCE, same_piece.
  destruct (snap_to_place_cases p) as [(Hx & Hy & ->)|[_ ->]]; simpl.
  - split_and!; try done; lia.
  - rewrite !Z.sub_diag. split_and!; try done; lia.
Qed.

(** ** create_puzzle_pieces *)

Lemma range_nonpos (n : Z) : n ≤ 0 → range n = [].
Proof. apply seqZ_nil. Qed.

Lemma bind_nil {A B : Type} (items : list A) :
  (items ≫= λ _, @nil B) = [].
Proof. induction items as [|a items IH]; csimpl; [done|]. by rewrite IH. Qed.

(** A negative number of rows or of columns gives no piece. *)
Lemma create_puzzle_pieces_negative img grid_rows grid_cols start_pos :
  grid_rows ≠ 0 → grid_cols ≠ 0 → grid_rows < 0 ∨ grid_cols < 0 →
  create_puzzle_pieces img grid_rows grid_cols start_pos = Ok [].
Proof.
  intros Hrows Hcols Hneg.
  unfold create_puzzle_pieces, floordiv; simpl.
  rewrite !decide_False by done. simpl.
  destruct (decide (grid_rows < 0)) as [Hr|Hr].
  - by rewrite range_nonpos by lia.
  - rewrite (for_each_append _ _ (λ _, [])).
    + by rewrite bind_nil.
    + intros row acc _. rewrite range_nonpos by lia. simpl.
      by rewrite app_nil_r.
Qed.

(** X3: on an image of a size that is not negative,
    [create_puzzle_pieces] raises exactly when the number of rows or of
    columns is zero, and then ZeroDivisionError; otherwise it returns
    max(rows, 0) * max(cols, 0) pieces, none when either number is
    negative. *)
Theorem create_puzzle_pieces_zero_division img grid_rows grid_cols start_pos :
  Surface.valid img →
  (grid_rows = 0 ∨ grid_cols = 0 →
   create_puzzle_pieces img grid_rows grid_cols start_pos =
     Raise ZeroDivisionError) ∧
  (grid_rows ≠ 0 → grid_cols ≠ 0 →
   ∃ ps, create_puzzle_pieces img grid_rows grid_cols start_pos = Ok ps ∧
         length ps = (Z.to_nat grid_rows * Z.to_nat grid_cols)%nat).
Proof.
  intros Hvalid. split.
  - intros Hzero. unfold create_puzzle_pieces, floordiv; simpl.
    destruct (decide (grid_cols = 0)) as [|Hc]; [done|]. simpl.
    destruct (decide (grid_rows = 0)) as [|Hr]; [done|]. lia.
  - intros Hrows Hcols.
    destruct (decide (1 ≤ grid_rows ∧ 1 ≤ grid_cols)) as [[Hr Hc]|Hneg].
    + eexists. split; [by apply create_puzzle_pieces_ok|].
      rewrite grid_size by lia. lia.
    + exists []. split; [apply create_puzzle_pieces_negative; lia|].
      simpl. lia.
Qed.

Lemma create_puzzle_pieces_zero_division_witness :
  create_puzzle_pieces (Surface.mk 100 100 0 0) 2 0 (50, 50) =
    Raise ZeroDivisionError ∧
  ∃ ps, create_puzzle_pieces (Surface.mk 100 100 0 0) 2 (-3) (50, 50) = Ok ps ∧
        length ps = 0%nat.
Proof.
  split.
  - apply (create_puzzle_pieces_zero_division (Surface.mk 100 100 0 0) 2 0
             (50, 50)); [by vm_compute|by right].
  - apply (create_puzzle_pieces_zero_division (Surface.mk 100 100 0 0) 2 (-3)
             (50, 50)); by vm_compute.
Defined.

(** The pieces of a grid with at least one row and one column are the
    pieces of its cells. *)
Lemma create_puzzle_pieces_cells img grid_rows grid_cols start_pos ps :
  Surface.valid img → 1 ≤ grid_rows → 1 ≤ grid_cols →
  create_puzzle_pieces img grid_rows grid_cols start_pos = Ok ps →
  ∀ i p, ps !! i = Some p →
    ∃ row col, 0 ≤ row < grid_rows ∧ 0 ≤ col < grid_cols ∧
      i = Z.to_nat (row * grid_cols + col) ∧
      p = cell_piece img start_pos (Surface.w img / grid_cols)
            (Surface.h img / grid_rows) row col.
Proof.
  intros Hvalid Hrows Hcols Hps i p Hp.
  rewrite create_puzzle_pieces_ok in Hps by done. injection Hps as <-.
  apply grid_inv in Hp; [done|lia..].
Qed.

Lemma piece_size_bounds (n d k : Z) :
  1 ≤ n → 0 ≤ d → 0 ≤ k < n → 0 ≤ k * (d / n) ∧ k * (d / n) + d / n ≤ d.
Proof.
  intros Hn Hd Hk.
  assert (0 ≤ d / n) by (apply Z.div_pos; lia).
  assert (n * (d / n) ≤ d) by (apply Z.mul_div_le; lia).
  nia.
Qed.

(** X4: a piece shows the pixel block of the image that lies at the same
    place in the image as the target of the piece lies from the origin of
    the puzzle, and this block is inside the image; so the pieces on their
    targets show the image. *)
Theorem create_puzzle_pieces_reconstructs img grid_rows grid_cols start_pos
    ps p :
  Surface.valid img → 1 ≤ grid_rows → 1 ≤ grid_cols →
  create_puzzle_pieces img grid_rows grid_cols start_pos = Ok ps →
  p ∈ ps →
  (correct_pos p).1 - start_pos.1 = Rect.x (block p) - Surface.src_x img ∧
  (correct_pos p).2 - start_pos.2 = Rect.y (block p) - Surface.src_y img ∧
  Surface.src_x img ≤ Rect.x (block p) ∧
  Rect.x (block p) + Rect.width (block p) ≤ Surface.src_x img + Surface.w img ∧
  Surface.src_y img ≤ Rect.y (block p) ∧
  Rect.y (block p) + Rect.height (block p) ≤ Surface.src_y img + Surface.h img.
Proof.
  intros Hvalid Hrows Hcols Hps [i Hi]%list_elem_of_lookup.
  destruct (create_puzzle_pieces_cells _ _ _ _ _ Hvalid Hrows Hcols Hps i p Hi)
    as (row & col & Hrow & Hcol & _ & ->).
  destruct Hvalid as [Hw Hh].
  pose proof (piece_size_bounds grid_cols (Surface.w img) col Hcols Hw Hcol).
  pose proof (piece_size_bounds grid_rows (Surface.h img) row Hrows Hh Hrow).
  simpl. lia.
Qed.

Lemma create_puzzle_pieces_reconstructs_witness :
  let p := PuzzlePiece_init (Surface.mk 50 50 50 0) (50, 0) in
  (correct_pos p).1 - 0 = Rect.x (block p) - 0 ∧
  (correct_pos p).2 - 0 = Rect.y (block p) - 0 ∧
  0 ≤ Rect.x (block p) ∧ Rect.x (block p) + Rect.width (block p) ≤ 0 + 100 ∧
  0 ≤ Rect.y (block p) ∧ Rect.y (block p) + Rect.height (block p) ≤ 0 + 100.
Proof.
  apply (create_puzzle_pieces_reconstructs (Surface.mk 100 100 0 0) 2 2 (0, 0)
           [ PuzzlePiece_init (Surface.mk 50 50 0 0) (0, 0);
             PuzzlePiece_init (Surface.mk 50 50 50 0) (50, 0);
             PuzzlePiece_init (Surface.mk 50 50 0 50) (0, 50);
             PuzzlePiece_init (Surface.mk 50 50 50 50) (50, 50) ]);
    try by vm_compute.
  apply list_elem_of_lookup. by exists 1%nat.
Defined.

Lemma cell_piece_block img start_pos pw ph row col pos :
  Rect.collidepoint (block (cell_piece img start_pos pw ph row col)) pos
    = true ↔
  Surface.src_x img + col * pw ≤ pos.1 < Surface.src_x img + col * pw + pw ∧
  Surface.src_y img + row * ph ≤ pos.2 < Surface.src_y img + row * ph + ph.
Proof.
  unfold Rect.collidepoint, block, cell_piece; simpl.
  rewrite bool_decide_eq_true. lia.
Qed.

(** X5: the pixels of the image that end up in a piece are those at
    column u < width - width mod cols and row v < height - height mod rows,
    the remainder at the right and at the bottom being dropped; no pixel
    is in two pieces. *)
Theorem create_puzzle_pieces_pixels img grid_rows grid_cols start_pos ps :
  Surface.valid img → 1 ≤ grid_rows → 1 ≤ grid_cols →
  create_puzzle_pieces img grid_rows grid_cols start_pos = Ok ps →
  (∀ u v,
     (∃ p, p ∈ ps ∧
        Rect.collidepoint (block p)
          (Surface.src_x img + u, Surface.src_y img + v) = true) ↔
     (0 ≤ u < Surface.w img - Surface.w img `mod` grid_cols ∧
      0 ≤ v < Surface.h img - Surface.h img `mod` grid_rows)) ∧
  (∀ i j p q pos, ps !! i = Some p → ps !! j = Some q →
     Rect.collidepoint (block p) pos = true →
     Rect.collidepoint (block q) pos = true → i = j).
Proof.
  intros Hvalid Hrows Hcols Hps.
  pose proof (create_puzzle_pieces_cells _ _ _ _ _ Hvalid Hrows Hcols Hps)
    as Hcells.
  rewrite create_puzzle_pieces_ok in Hps by done. injection Hps as <-.
  set (pw := Surface.w img / grid_cols) in *.
  set (ph := Surface.h img / grid_rows) in *.
  pose proof (Z.div_mod (Surface.w img) grid_cols ltac:(lia)) as Hwm.
  pose proof (Z.div_mod (Surface.h img) grid_rows ltac:(lia)) as Hhm.
  fold pw in Hwm. fold ph in Hhm.
  destruct Hvalid as [Hw Hh].
  assert (0 ≤ pw) by (apply Z.div_pos; lia).
  assert (0 ≤ ph) by (apply Z.div_pos; lia).
  clearbody pw ph. split.
  - intros u v. split.
    + intros (p & [i Hi]%list_elem_of_lookup & Hin).
      destruct (Hcells i p Hi) as (row & col & Hrow & Hcol & _ & ->).
      apply cell_piece_block in Hin. simpl in Hin.
      assert (col * pw + pw ≤ grid_cols * pw) by nia.
      assert (row * ph + ph ≤ grid_rows * ph) by nia.
      assert (0 ≤ col * pw) by nia. assert (0 ≤ row * ph) by nia. lia.
    + intros [Hu Hv].
      assert (0 < pw) by nia. assert (0 < ph) by nia.
      destruct (strip_cell grid_cols pw u) as [Hc Hcu]; [lia..|].
      destruct (strip_cell grid_rows ph v) as [Hr Hrv]; [lia..|].
      exists (cell_piece img start_pos pw ph (v / ph) (u / pw)). split.
      * apply list_elem_of_lookup. eexists. by apply grid_cell.
      * apply cell_piece_block. simpl. lia.
  - intros i j p q pos Hp Hq Hpin Hqin.
    destruct (Hcells i p Hp) as (row & col & _ & _ & -> & ->).
    destruct (Hcells j q Hq) as (row' & col' & _ & _ & -> & ->).
    apply cell_piece_block in Hpin, Hqin.
    assert (col = col')
      by (apply (strip_unique pw _ _ (pos.1 - Surface.src_x img)); lia).
    assert (row = row')
      by (apply (strip_unique ph _ _ (pos.2 - Surface.src_y img)); lia).
    by subst.
Qed.

Lemma create_puzzle_pieces_pixels_witness :
  (∃ p, p ∈ [ PuzzlePiece_init (Surface.mk 2 2 0 0) (0, 0);
              PuzzlePiece_init (Surface.mk 2 2 2 0) (2, 0);
              PuzzlePiece_init (Surface.mk 2 2 0 2) (0, 2);
              PuzzlePiece_init (Surface.mk 2 2 2 2) (2, 2) ] ∧
        Rect.collidepoint (block p) (0 + 3, 0 + 1) = true) ↔
  (0 ≤ 3 < 5 - 5 `mod` 2 ∧ 0 ≤ 1 < 4 - 4 `mod` 2).
Proof.
  apply (proj1 (create_puzzle_pieces_pixels (Surface.mk 5 4 0 0) 2 2 (0, 0) _
                  ltac:(by vm_compute) ltac:(by vm_compute)
                  ltac:(by vm_compute) eq_refl) 3 1).
Defined.

(** X6: the target rectangle of every piece that [main] creates lies
    inside the outline of the solved puzzle that each frame draws. *)
Theorem targets_inside_outline img grid_rows grid_cols ps p pos :
  Surface.valid img → 1 ≤ grid_rows → 1 ≤ grid_cols →
  create_puzzle_pieces img grid_rows grid_cols puzzle_start_pos = Ok ps →
  p ∈ ps →
  Rect.collidepoint (target_rect p) pos = true →
  Rect.collidepoint (puzzle_area img) pos = true.
Proof.
  intros Hvalid Hrows Hcols Hps [i Hi]%list_elem_of_lookup Hin.
  destruct (create_puzzle_pieces_cells _ _ _ _ _ Hvalid Hrows Hcols Hps i p Hi)
    as (row & col & Hrow & Hcol & _ & ->).
  apply cell_piece_target in Hin.
  destruct Hvalid as [Hw Hh].
  pose proof (piece_size_bounds grid_cols (Surface.w img) col Hcols Hw Hcol).
  pose proof (piece_size_bounds grid_rows (Surface.h img) row Hrows Hh Hrow).
  unfold puzzle_area, Rect.collidepoint; simpl.
  apply bool_decide_eq_true. simpl in Hin. lia.
Qed.

Lemma targets_inside_outline_witness :
  Rect.collidepoint (puzzle_area demo_image) (260, 170) = true.
Proof.
  apply (targets_inside_outline demo_image 3 3
           (grid demo_image puzzle_start_pos 100 100 3 3)
           (cell_piece demo_image puzzle_start_pos 100 100 1 2) (260, 170));
    try by vm_compute.
  apply list_elem_of_lookup. by exists 5%nat.
Defined.

(** ** The set-up of main *)

(** X7: on an image whose pieces fit the screen, the set-up raises
    nothing: it leaves nine pieces, referenced in the order of the grid,
    each one the piece of its cell moved to a place where it lies wholly
    on the screen; nothing is selected and no piece is flagged as moving.
    On an image whose pieces are wider or higher than the screen it raises
    ValueError. *)
Theorem setup_spec img tape :
  Surface.valid img →
  (Surface.w img / GRID_COLS ≤ SCREEN_WIDTH →
   Surface.h img / GRID_ROWS ≤ SCREEN_HEIGHT →
   ∃ s, setup img screen_rect tape = Ok s ∧ initial s ∧
        pieces s = seq 0 9 ∧ length (heap s) = 9%nat ∧
        ∀ r p, heap s !! r = Some p →
          ∃ p0, grid img puzzle_start_pos (Surface.w img / GRID_COLS)
                  (Surface.h img / GRID_ROWS) GRID_ROWS GRID_COLS !! r
                = Some p0 ∧
                scattered screen_rect p0 p) ∧
  (SCREEN_WIDTH < Surface.w img / GRID_COLS ∨
   SCREEN_HEIGHT < Surface.h img / GRID_ROWS →
   setup img screen_rect tape = Raise ValueError).
Proof.
  intros Hvalid.
  pose proof (create_puzzle_pieces_ok img GRID_ROWS GRID_COLS puzzle_start_pos
                Hvalid ltac:(by vm_compute) ltac:(by vm_compute)) as Hobjs.
  set (objs := grid _ _ _ _ _ _) in *.
  assert (length objs = 9%nat) as Hlen
    by (unfold objs; by rewrite grid_size by by vm_compute).
  assert (∀ r p0, objs !! r = Some p0 →
            Rect.width (rect p0) = Surface.w img / GRID_COLS ∧
            Rect.height (rect p0) = Surface.h img / GRID_ROWS) as Hsize.
  { intros r p0 Hp0.
    apply grid_inv in Hp0 as (row & col & _ & _ & _ & ->);
      [done|by vm_compute..]. }
  clearbody objs. split.
  - intros Hw Hh.
    destruct (shuffle_pieces_ok screen_rect (seq 0 (length objs)) objs tape)
      as (hp & tape' & Hrun & Hlen' & Hin & _).
    { intros r Hr%elem_of_seq.
      destruct (lookup_lt_is_Some_2 objs r) as [p0 Hp0]; [lia|].
      exists p0. split; [done|].
      destruct (Hsize r p0 Hp0) as [Hw0 Hh0]. unfold fits.
      rewrite Hw0, Hh0. by split. }
    assert (setup img screen_rect tape =
            Ok (mkSession hp (seq 0 (length objs)) None 0 0 true)) as Hsetup.
    { unfold setup. fold puzzle_start_pos. rewrite Hobjs.
      cbv beta iota delta [mbind result_bind]. by rewrite Hrun. }
    eexists. split; [exact Hsetup|].
    split; [by eapply setup_initial|]. simpl.
    split; [by rewrite Hlen|]. split; [by rewrite Hlen', Hlen|].
    intros r p Hp.
    destruct (lookup_lt_is_Some_2 objs r) as [p0 Hp0].
    { rewrite <- Hlen'. by eapply lookup_lt_Some. }
    exists p0. split; [done|].
    destruct (Hin r p0) as (p' & Hp' & Hsc); [|done|congruence].
    apply elem_of_seq. apply lookup_lt_Some in Hp0. lia.
  - intros Hbig. unfold setup. fold puzzle_start_pos. rewrite Hobjs.
    cbv beta iota delta [mbind result_bind].
    rewrite shuffle_pieces_too_large; [done| |].
    + intros r Hr%elem_of_seq. apply lookup_lt_is_Some. lia.
    + destruct (lookup_lt_is_Some_2 objs 0) as [p0 Hp0]; [lia|].
      exists 0%nat, p0. split_and!; [|done|].
      * apply elem_of_seq. lia.
      * destruct (Hsize _ _ Hp0) as [Hw0 Hh0]. unfold fits.
        rewrite Hw0, Hh0.
        unfold screen_rect, SCREEN_WIDTH, SCREEN_HEIGHT in *. simpl. lia.
Qed.

Lemma setup_spec_witness :
  ∃ s, setup demo_image screen_rect demo_tape = Ok s ∧ initial s ∧
       pieces s = seq 0 9 ∧ length (heap s) = 9%nat.
Proof.
  destruct (proj1 (setup_spec demo_image demo_tape ltac:(by vm_compute))
              ltac:(by vm_compute) ltac:(by vm_compute))
    as (s & Hs & Hinit & Hps & Hlen & _).
  exists s. by split_and!.
Defined.

(** ** What an event changes *)

Lemma same_piece_refl p : same_piece p p.
Proof. by unfold same_piece. Qed.

Lemma same_piece_trans p1 p2 p3 :
  same_piece p1 p2 → same_piece p2 p3 → same_piece p1 p3.
Proof.
  unfold same_piece. intros (?&?&?&?) (?&?&?&?). split_and!; congruence.
Qed.

Lemma snap_to_place_same p : same_piece p (snap_to_place p).2.
Proof.
  by destruct (snap_to_place_cases p) as [(_ & _ & ->)|[_ ->]].
Qed.

(** An event leaves the heap as it is or replaces one piece by a piece
    that differs in its position and flag at most; the position changes
    only for the piece that was selected when the event arrived. *)
Lemma handle_event_heap s event s' :
  handle_event s event = Ok s' →
  heap s' = heap s ∨
  ∃ r p p', heap s !! r = Some p ∧ heap s' = <[r := p']> (heap s) ∧
            same_piece p p' ∧
            (rect p' = rect p ∨ selected_piece s = Some r).
Proof.
  destruct event as [|button pos|pos|button pos|]; cbn [handle_event].
  - intros [= <-]. by left.
  - case_decide; [|intros [= <-]; by left]. intros Hrun.
    apply mousedown_loop_inv in Hrun as [->|Hpick]; [by left|].
    destruct Hpick as (r & piece & before & after & _ & Hr & _ & _ & _ & ->).
    right. exists r, piece, (set_moving piece true).
    split_and!; [done..|by left].
  - destruct (selected_piece s) as [r|] eqn:Hsel; [|intros [= <-]; by left].
    unfold deref. destruct (heap s !! r) as [piece|] eqn:Hr; simpl; [|done].
    destruct (moving piece); intros [= <-]; [|by left].
    right. eexists r, piece, _. split_and!; [done..|by right].
  - case_decide; [|intros [= <-]; by left].
    destruct (selected_piece s) as [r|] eqn:Hsel; [|intros [= <-]; by left].
    unfold deref. destruct (heap s !! r) as [piece|] eqn:Hr; simpl; [|done].
    intros [= <-]. right. eexists r, piece, _.
    split_and!; [done|done| |by right].
    apply (same_piece_trans _ (set_moving piece false)); [done|].
    apply snap_to_place_same.
  - intros [= <-]. by left.
Qed.

Lemma handle_event_pieces s event s' :
  handle_event s event = Ok s' → pieces s' ≡ₚ pieces s.
Proof.
  destruct event as [|button pos|pos|button pos|]; cbn [handle_event].
  - by intros [= <-].
  - case_decide; [|by intros [= <-]]. intros Hrun.
    apply mousedown_loop_inv in Hrun as [->|Hpick]; [done|].
    destruct Hpick as (r & piece & before & after & _ & _ & _ & -> & _ & ->).
    apply picked_up_perm.
  - destruct (selected_piece s) as [r|]; [|by intros [= <-]].
    destruct (deref (heap s) r) as [piece|]; simpl; [|done].
    destruct (moving piece); by intros [= <-].
  - case_decide; [|by intros [= <-]].
    destruct (selected_piece s) as [r|]; [|by intros [= <-]].
    destruct (deref (heap s) r) as [piece|]; simpl; [|done].
    by intros [= <-].
  - by intros [= <-].
Qed.

(** A run, event by event. *)
Lemma run_events_cons s event events s' :
  run_events s (event :: events) = Ok s' →
  ∃ s1, handle_event s event = Ok s1 ∧ run_events s1 events = Ok s'.
Proof.
  unfold run_events. simpl.
  destruct (handle_event s event) as [s1|]; simpl; [|done]. by exists s1.
Qed.

Lemma handle_event_same_pieces s event s' r p :
  handle_event s event = Ok s' → heap s !! r = Some p →
  ∃ p', heap s' !! r = Some p' ∧ same_piece p p'.
Proof.
  intros Hrun Hp.
  destruct (handle_event_heap s event s' Hrun)
    as [->|(r0 & p0 & p0' & Hr0 & -> & Hsame & _)].
  { exists p. split; [done|apply same_piece_refl]. }
  destruct (decide (r = r0)) as [->|Hne].
  - exists p0'. rewrite list_lookup_insert_eq by by eapply lookup_lt_Some.
    split; [done|]. by assert (p = p0) as -> by congruence.
  - exists p. rewrite list_lookup_insert_ne by done.
    split; [done|apply same_piece_refl].
Qed.

(** X8: a run of events adds no piece and removes none: the render list
    after the run is a permutation of the render list before it, and the
    heap has as many objects. *)
Theorem run_events_keeps_pieces events s s' :
  run_events s events = Ok s' →
  pieces s' ≡ₚ pieces s ∧ length (heap s') = length (heap s).
Proof.
  revert s. induction events as [|event events IH]; intros s Hrun.
  - by injection Hrun as <-.
  - apply run_events_cons in Hrun as (s1 & Hs1 & Hrun).
    destruct (IH s1 Hrun) as [Hperm Hlen].
    rewrite Hperm, Hlen. split; [by eapply handle_event_pieces|].
    destruct (handle_event_heap s event s1 Hs1)
      as [->|(r & p & p' & _ & -> & _)]; [done|apply length_insert].
Qed.

Lemma run_events_keeps_pieces_witness :
  ∃ s',
    run_events three_pieces
      [MOUSEBUTTONDOWN 1 (40, 40); MOUSEMOTION (70, 90);
       MOUSEBUTTONUP 1 (70, 90)] = Ok s' ∧
    pieces s' ≡ₚ [0; 1; 2]%nat ∧ length (heap s') = 3%nat.
Proof.
  eexists. split; [reflexivity|].
  apply (run_events_keeps_pieces
           [MOUSEBUTTONDOWN 1 (40, 40); MOUSEMOTION (70, 90);
            MOUSEBUTTONUP 1 (70, 90)] three_pieces).
  reflexivity.
Defined.

(** X9: a run of events changes of a piece its position and its [moving]
    flag at most: the image, the target and the size of the rectangle of
    every piece are after the run what they were before it. *)
Theorem run_events_same_pieces events s s' r p :
  run_events s events = Ok s' → heap s !! r = Some p →
  ∃ p', heap s' !! r = Some p' ∧ same_piece p p'.
Proof.
  revert s p. induction events as [|event events IH]; intros s p Hrun Hp.
  - injection Hrun as <-. exists p. split; [done|apply same_piece_refl].
  - apply run_events_cons in Hrun as (s1 & Hs1 & Hrun).
    destruct (handle_event_same_pieces s event s1 r p Hs1 Hp)
      as (p1 & Hp1 & Hsame1).
    destruct (IH s1 p1 Hrun Hp1) as (p' & Hp' & Hsame).
    exists p'. split; [done|]. by eapply same_piece_trans.
Qed.

Lemma run_events_same_pieces_witness :
  ∃ p', ∃ s',
    run_events three_pieces
      [MOUSEBUTTONDOWN 1 (40, 40); MOUSEMOTION (70, 90);
       MOUSEBUTTONUP 1 (70, 90)] = Ok s' ∧
    heap s' !! 1%nat = Some p' ∧ correct_pos p' = (100, 50).
Proof.
  destruct (run_events_same_pieces
              [MOUSEBUTTONDOWN 1 (40, 40); MOUSEMOTION (70, 90);
               MOUSEBUTTONUP 1 (70, 90)] three_pieces _ 1%nat
              (mkPiece (Surface.mk 50 50 50 0) (100, 50) (Rect.mk 30 30 50 50)
                       false) eq_refl eq_refl)
    as (p' & Hp' & _ & Htarget & _).
  exists p'. eexists. split; [reflexivity|]. split; [exact Hp'|exact Htarget].
Defined.



(** ** Runs from the session that main sets up *)

(** X11: from the session that the set-up leaves, no sequence of events
    raises: [pieces.remove] always finds the piece, and every reference
    that the loop follows points to a piece. *)
Theorem events_never_raise img screen tape s events :
  setup img screen tape = Ok s →
  ∃ s', run_events s events = Ok s'.
Proof.
  intros Hsetup%setup_initial%initial_inv.
  destruct (run_events_inv events s Hsetup) as (s' & Hs' & _). by exists s'.
Qed.

Lemma events_never_raise_witness :
  ∃ s0 s',
    setup demo_image screen_rect demo_tape = Ok s0 ∧
    run_events s0
      [MOUSEBUTTONDOWN 1 (10, 10); MOUSEBUTTONDOWN 1 (10, 10); QUIT;
       MOUSEBUTTONUP 1 (5, 5); MOUSEBUTTONUP 1 (5, 5)] = Ok s'.
Proof.
  eexists. 
  destruct (events_never_raise demo_image screen_rect demo_tape _
              [MOUSEBUTTONDOWN 1 (10, 10); MOUSEBUTTONDOWN 1 (10, 10); QUIT;
               MOUSEBUTTONUP 1 (5, 5); MOUSEBUTTONUP 1 (5, 5)] eq_refl)
    as [s' Hs'].
  exists s'. split; [reflexivity|exact Hs'].
Defined.

Lemma handle_event_selected_last s event s' :
  (∀ r, selected_piece s = Some r → last (pieces s) = Some r) →
  handle_event s event = Ok s' →
  ∀ r, selected_piece s' = Some r → last (pieces s') = Some r.
Proof.
  intros Hlast Hrun.
  destruct event as [|button pos|pos|button pos|]; cbn [handle_event] in Hrun.
  - by injection Hrun as <-.
  - case_decide; [|by injection Hrun as <-].
    apply mousedown_loop_inv in Hrun as [->|Hpick]; [done|].
    destruct Hpick as (r & piece & before & after & _ & _ & _ & _ & _ & ->).
    simpl. intros r' [= <-]. by rewrite !app_assoc, last_snoc.
  - destruct (selected_piece s) as [r|] eqn:Hsel;
      [|injection Hrun as <-; by rewrite Hsel].
    destruct (deref (heap s) r) as [piece|]; simpl in Hrun; [|done].
    destruct (moving piece); injection Hrun as <-; simpl; by rewrite ?Hsel.
  - case_decide; [|by injection Hrun as <-].
    destruct (selected_piece s) as [r|] eqn:Hsel;
      [|injection Hrun as <-; by rewrite Hsel].
    destruct (deref (heap s) r) as [piece|]; simpl in Hrun; [|done].
    by injection Hrun as <-.
  - by injection Hrun as <-.
Qed.

(** X12: whatever the events were, a piece that is selected is the last
    of the render list, so it is drawn over all the others, and it has
    its [moving] flag set. *)
Theorem selected_piece_on_top s0 events s r :
  initial s0 → run_events s0 events = Ok s → selected_piece s = Some r →
  last (pieces s) = Some r ∧ is_moving (heap s) r = true.
Proof.
  intros Hinit Hrun Hsel. split.
  - assert (∀ r, selected_piece s0 = Some r → last (pieces s0) = Some r)
      as Hlast0.
    { destruct Hinit as (_ & -> & _). done. }
    clear Hinit. revert s0 Hrun Hlast0.
    induction events as [|event events IH]; intros s0 Hrun Hlast0.
    + injection Hrun as <-. by apply Hlast0.
    + apply run_events_cons in Hrun as (s1 & Hs1 & Hrun).
      apply (IH s1 Hrun). by eapply handle_event_selected_last.
  - destruct (run_events_inv events s0 (initial_inv s0 Hinit))
      as (s' & Hs' & [_ Hinv]).
    assert (s' = s) as -> by congruence.
    destruct (Hinv r Hsel) as (_ & piece & Hpiece & Hmov).
    unfold is_moving. by rewrite Hpiece.
Qed.

Lemma three_pieces_initial : initial three_pieces.
Proof.
  split; [apply three_pieces_wf|]. split; [done|].
  intros r p Hp. destruct r as [|[|[|r]]]; simpl in Hp; [..|done];
    by injection Hp as <-.
Qed.

Lemma selected_piece_on_top_witness :
  ∃ s,
    run_events three_pieces [MOUSEBUTTONDOWN 1 (40, 40); MOUSEMOTION (7, 9)]
      = Ok s ∧
    last (pieces s) = Some 1%nat ∧ is_moving (heap s) 1%nat = true.
Proof.
  eexists. split; [reflexivity|].
  apply (selected_piece_on_top three_pieces
           [MOUSEBUTTONDOWN 1 (40, 40); MOUSEMOTION (7, 9)] _ 1%nat
           three_pieces_initial eq_refl eq_refl).
Defined.

(** ** Sequences of events *)

(** X13: of two pointer moves in a row only the second counts: the
    session after both is the session after the second alone. *)
Theorem mousemotion_last_wins s pos1 pos2 :
  (s1 ← handle_event s (MOUSEMOTION pos1);
   handle_event s1 (MOUSEMOTION pos2)) =
  handle_event s (MOUSEMOTION pos2).
Proof.
  cbn [handle_event].
  destruct (selected_piece s) as [r|] eqn:Hsel; simpl; [|by rewrite Hsel].
  unfold deref. destruct (heap s !! r) as [piece|] eqn:Hr; simpl; [|done].
  destruct (moving piece) eqn:Hmov; simpl.
  - rewrite list_lookup_insert_eq by by eapply lookup_lt_Some.
    simpl. rewrite Hmov. by rewrite list_insert_insert_eq.
  - rewrite Hsel. simpl. rewrite Hr. simpl. by rewrite Hmov.
Qed.

(** X14: a press on a piece followed at once by the release leaves the
    heap as it was but for the piece pressed, which has its flag cleared
    and is snapped onto its target if it lay within SNAP_DISTANCE of it;
    nothing is selected afterwards. *)
Theorem click_snaps_or_stays s pos pos' s1 s2 r piece :
  selected_piece s = None →
  handle_event s (MOUSEBUTTONDOWN 1 pos) = Ok s1 →
  selected_piece s1 = Some r → heap s !! r = Some piece →
  handle_event s1 (MOUSEBUTTONUP 1 pos') = Ok s2 →
  heap s2 = <[r := (snap_to_place (set_moving piece false)).2]> (heap s) ∧
  selected_piece s2 = None.
Proof.
  intros Hidle Hdown Hsel Hr Hup.
  destruct (mousedown_selects s pos s1 r piece Hidle Hdown Hsel Hr)
    as (before & after & _ & _ & ->).
  cbn [handle_event picked_up selected_piece heap] in Hup.
  rewrite decide_True in Hup by done. unfold deref in Hup.
  rewrite list_lookup_insert_eq in Hup by by eapply lookup_lt_Some.
  simpl in Hup. injection Hup as <-. simpl.
  by rewrite list_insert_insert_eq.
Qed.

Lemma click_snaps_or_stays_witness :
  ∃ s1 s2,
    handle_event three_pieces (MOUSEBUTTONDOWN 1 (40, 40)) = Ok s1 ∧
    handle_event s1 (MOUSEBUTTONUP 1 (40, 40)) = Ok s2 ∧
    heap s2 = heap three_pieces ∧ selected_piece s2 = None.
Proof.
  eexists _, _. split; [reflexivity|]. split; [reflexivity|].
  apply (click_snaps_or_stays three_pieces (40, 40) (40, 40) _ _ 1%nat
           (mkPiece (Surface.mk 50 50 50 0) (100, 50) (Rect.mk 30 30 50 50)
                    false) eq_refl eq_refl eq_refl eq_refl eq_refl).
Defined.

(** X15: a piece whose rectangle has no width or no height is never picked
    up: a press does not select it unless it was selected before. *)
Theorem empty_piece_never_picked s pos s' r p :
  handle_event s (MOUSEBUTTONDOWN 1 pos) = Ok s' →
  heap s !! r = Some p →
  Rect.width (rect p) ≤ 0 ∨ Rect.height (rect p) ≤ 0 →
  selected_piece s ≠ Some r → selected_piece s' ≠ Some r.
Proof.
  intros Hrun Hp Hempty Hnot Hsel. cbn [handle_event] in Hrun.
  rewrite decide_True in Hrun by done.
  apply mousedown_loop_inv in Hrun as [->|Hpick]; [done|].
  destruct Hpick as (r0 & p0 & before & after & _ & Hr0 & Hcol & _ & _ & ->).
  simpl in Hsel. injection Hsel as ->.
  assert (p0 = p) as -> by congruence.
  apply bool_decide_eq_true in Hcol. lia.
Qed.

Lemma empty_piece_never_picked_witness :
  selected_piece
    (mkSession [PuzzlePiece_init (Surface.mk 0 2 0 0) (50, 50)] [0%nat]
               None 0 0 true) ≠ Some 0%nat.
Proof.
  apply (empty_piece_never_picked
           (mkSession [PuzzlePiece_init (Surface.mk 0 2 0 0) (50, 50)]
                      [0%nat] None 0 0 true)
           (50, 50)
           (mkSession [PuzzlePiece_init (Surface.mk 0 2 0 0) (50, 50)]
                      [0%nat] None 0 0 true)
           0%nat (PuzzlePiece_init (Surface.mk 0 2 0 0) (50, 50)));
    [reflexivity|reflexivity|left; by vm_compute|done].
Defined.

(** ** The size of a piece *)

Lemma shuffle_piece_sizes screen r st st' :
  shuffle_piece screen r st = Ok st' →
  Forall size_matches st.1 → Forall size_matches st'.1.
Proof.
  destruct st as [hp tape]. unfold shuffle_piece, deref, randint. simpl.
  destruct (hp !! r) as [piece|] eqn:Hr; simpl; [|done].
  repeat (case_decide; simpl; try done).
  intros [= <-] Hall. simpl.
  pose proof (Forall_lookup_1 _ _ _ _ Hall Hr) as Hpiece.
  by repeat apply Forall_insert.
Qed.

Lemma handle_event_sizes s event s' :
  handle_event s event = Ok s' →
  Forall size_matches (heap s) → Forall size_matches (heap s').
Proof.
  intros Hrun Hall.
  destruct (handle_event_heap s event s' Hrun)
    as [->|(r & p & p' & Hr & -> & (Himg & _ & Hw & Hh) & _)]; [done|].
  apply Forall_insert; [done|].
  destruct (Forall_lookup_1 _ _ _ _ Hall Hr) as [Hpw Hph].
  unfold size_matches. rewrite Hw, Hh, Himg. by split.
Qed.

(** X16: in every session that a run of events reaches from the set-up,
    the rectangle of every piece has the size of the image of the
    piece. *)
Theorem piece_size_invariant img screen tape s0 events s r p :
  setup img screen tape = Ok s0 → run_events s0 events = Ok s →
  heap s !! r = Some p → size_matches p.
Proof.
  intros Hsetup Hrun Hp.
  assert (Forall size_matches (heap s0)) as Hall0.
  { unfold setup in Hsetup.
    destruct (create_puzzle_pieces _ _ _ _) as [objs|] eqn:Hobjs;
      simpl in Hsetup; [|done].
    destruct (shuffle_pieces _ _ _) as [[hp tape']|] eqn:Hsh;
      simpl in Hsetup; [|done].
    injection Hsetup as <-. simpl.
    apply (for_each_invariant (λ st, Forall size_matches st.1)
             _ _ _ (hp, tape') (shuffle_piece_sizes screen) Hsh).
    simpl. apply create_puzzle_pieces_fresh in Hobjs.
    eapply Forall_impl; [exact Hobjs|].
    intros q [Hq _]. unfold size_matches. by rewrite Hq. }
  clear Hsetup. revert s0 Hrun Hall0.
  induction events as [|event events IH]; intros s0 Hrun Hall0.
  - injection Hrun as <-. by eapply Forall_lookup_1.
  - apply run_events_cons in Hrun as (s1 & Hs1 & Hrun).
    apply (IH s1 Hrun). by eapply handle_event_sizes.
Qed.

Lemma piece_size_invariant_witness :
  size_matches
    (mkPiece (Surface.mk 100 100 0 0) (50, 50) (Rect.mk 50 50 100 100) false).
Proof.
  apply (piece_size_invariant demo_image screen_rect demo_tape _
           [MOUSEBUTTONDOWN 1 (10, 10); MOUSEMOTION (60, 60);
            MOUSEBUTTONUP 1 (60, 60)] _ 0%nat _ eq_refl eq_refl).
  reflexivity.
Defined.

(** ** Frames *)

Lemma draw_loop_blits hp refs acc frame :
  for_each refs (λ r screen, piece ← deref hp r; Ok (draw piece screen)) acc
    = Ok frame →
  ∃ blits, frame = acc ++ blits ∧ Forall2 (draws hp) refs blits.
Proof.
  revert acc. induction refs as [|r refs IH]; intros acc Hrun; simpl in Hrun.
  - injection Hrun as <-. exists []. by rewrite app_nil_r.
  - unfold deref in Hrun.
    destruct (hp !! r) as [p|] eqn:Hr; simpl in Hrun; [|done].
    destruct (IH _ Hrun) as (blits & -> & Hall).
    exists (Blit (image p) (Rect.topleft (rect p)) :: blits).
    unfold draw. rewrite <- app_assoc. split; [done|].
    constructor; [by exists p|done].
Qed.

(** A frame is the background, the outline, one blit for each reference
    of the render list in its order, and the flip. *)
Lemma render_blits img s frame :
  render img s = Ok frame →
  ∃ blits,
    frame = [Fill (50, 50, 50); DrawRect (200, 200, 200) (puzzle_area img) 3]
            ++ blits ++ [Flip] ∧
    Forall2 (draws (heap s)) (pieces s) blits.
Proof.
  unfold render. intros Hrun.
  destruct (for_each _ _ _) as [screen|] eqn:Hloop; simpl in Hrun; [|done].
  injection Hrun as <-.
  apply draw_loop_blits in Hloop as (blits & -> & Hall).
  exists blits. split; [|done]. by rewrite <- app_assoc.
Qed.

Lemma mousedown_loop_visible todo blits pos s s' :
  Forall2 (draws (heap s)) todo blits →
  (∀ r p, r ∈ todo → heap s !! r = Some p → size_matches p) →
  mousedown_loop todo pos s = Ok s' →
  match head (filter (λ cmd, covers pos cmd = true) blits) with
  | Some cmd => ∃ r, selected_piece s' = Some r ∧ draws (heap s) r cmd
  | None => s' = s
  end.
Proof.
  intros Hall. induction Hall as [|r cmd todo blits Hr Hall IH];
    intros Hsize Hrun; simpl in Hrun.
  { by injection Hrun as <-. }
  destruct Hr as (p & Hp & ->).
  unfold deref in Hrun. rewrite Hp in Hrun. simpl in Hrun.
  assert (covers pos (Blit (image p) (Rect.topleft (rect p))) =
          Rect.collidepoint (rect p) pos) as Hcov.
  { destruct (Hsize r p) as [Hw Hh]; [left|done|].
    unfold covers, Rect.collidepoint. simpl. by rewrite Hw, Hh. }
  destruct (Rect.collidepoint (rect p) pos) eqn:Hcol.
  - rewrite filter_cons_True by done. simpl.
    destruct (list_remove r (pieces s)) as [ps'|]; simpl in Hrun; [|done].
    injection Hrun as <-. exists r. split; [done|]. by exists p.
  - rewrite filter_cons_False by (by rewrite Hcov).
    apply IH; [|done]. intros r' p' Hr'. apply Hsize. by right.
Qed.

(** X17: a press of button 1 selects the piece that the frame shows at the
    pointer, that is, the piece drawn last over that position; where the
    frame shows no piece the press changes nothing. *)
Theorem press_selects_visible_piece img s pos frame s' :
  (∀ r p, r ∈ pieces s → heap s !! r = Some p → size_matches p) →
  render img s = Ok frame →
  handle_event s (MOUSEBUTTONDOWN 1 pos) = Ok s' →
  match visible_at frame pos with
  | Some cmd => ∃ r, selected_piece s' = Some r ∧ draws (heap s) r cmd
  | None => s' = s
  end.
Proof.
  intros Hsize Hframe Hrun.
  apply render_blits in Hframe as (blits & -> & Hall).
  cbn [handle_event] in Hrun. rewrite decide_True in Hrun by done.
  assert (visible_at
            ([Fill (50, 50, 50);
              DrawRect (200, 200, 200) (puzzle_area img) 3] ++ blits ++ [Flip])
            pos =
          head (filter (λ cmd, covers pos cmd = true) (reverse blits))) as ->.
  { unfold visible_at. rewrite reverse_app, reverse_snoc.
    rewrite <- app_comm_cons, filter_cons_False by done.
    rewrite filter_app, (filter_none _ (reverse [_; _])).
    - by rewrite app_nil_r.
    - intros cmd Hcmd. rewrite elem_of_reverse in Hcmd.
      apply elem_of_cons in Hcmd as [->|Hcmd]; [done|].
      by apply list_elem_of_singleton in Hcmd as ->. }
  apply (mousedown_loop_visible (reverse (pieces s))); [|
    |done].
  - by apply Forall2_reverse.
  - intros r p Hr. rewrite elem_of_reverse in Hr. by apply Hsize.
Qed.

Lemma press_selects_visible_piece_witness :
  ∃ s',
    handle_event three_pieces (MOUSEBUTTONDOWN 1 (40, 40)) = Ok s' ∧
    ∃ r, selected_piece s' = Some r ∧
         draws (heap three_pieces) r (Blit (Surface.mk 50 50 50 0) (30, 30)).
Proof.
  eexists. split; [reflexivity|].
  apply (press_selects_visible_piece demo_image three_pieces (40, 40) _ _
           ltac:(intros r p _ Hp;
                 destruct r as [|[|[|r]]]; simpl in Hp; [..|done];
                 by injection Hp as <-)
           eq_refl eq_refl).
Defined.

(** ** Leaving the loop *)

Lemma handle_event_running s event s' :
  handle_event s event = Ok s' →
  running s' = match event with QUIT => false | _ => running s end.
Proof.
  destruct event as [|button pos|pos|button pos|]; cbn [handle_event].
  - by intros [= <-].
  - case_decide; [|by intros [= <-]]. intros Hrun.
    apply mousedown_loop_inv in Hrun as [->|Hpick]; [done|].
    by destruct Hpick as (r & piece & before & after & _ & _ & _ & _ & _ & ->).
  - destruct (selected_piece s) as [r|]; [|by intros [= <-]].
    destruct (deref (heap s) r) as [piece|]; simpl; [|done].
    destruct (moving piece); by intros [= <-].
  - case_decide; [|by intros [= <-]].
    destruct (selected_piece s) as [r|]; [|by intros [= <-]].
    destruct (deref (heap s) r) as [piece|]; simpl; [|done].
    by intros [= <-].
  - by intros [= <-].
Qed.

(** No event sets [running] again, and a QUIT among the events clears
    it. *)
Lemma run_events_running events s s' :
  run_events s events = Ok s' →
  (running s = false → running s' = false) ∧
  (QUIT ∈ events → running s' = false).
Proof.
  revert s. induction events as [|event events IH]; intros s Hrun.
  - injection Hrun as <-. split; [done|]. by intros ?%elem_of_nil.
  - apply run_events_cons in Hrun as (s1 & Hs1 & Hrun).
    destruct (IH s1 Hrun) as [Hstay Hquit].
    pose proof (handle_event_running s event s1 Hs1) as Hr1.
    split.
    + intros Hoff. apply Hstay. rewrite Hr1. by destruct event.
    + intros [<-|Hin]%elem_of_cons; [by apply Hstay|by apply Hquit].
Qed.

(** X18: the loop ends with the turn whose batch of events holds a QUIT:
    the events that follow the QUIT in that batch are still handled and
    the frame of that turn is still drawn, and no later batch is read. *)
Theorem main_loop_quits img batch batches s s' frame frames :
  running s = true → QUIT ∈ batch →
  run_events s batch = Ok s' → render img s' = Ok frame →
  main_loop img (batch :: batches) s frames = Ok (s', frames ++ [frame]).
Proof.
  intros Hon Hquit Hrun Hframe. simpl. rewrite Hon, Hrun. simpl.
  rewrite Hframe. simpl.
  destruct (run_events_running batch s s' Hrun) as [_ Hoff].
  destruct batches as [|batch' batches]; simpl; [done|].
  by rewrite Hoff.
Qed.

Lemma main_loop_quits_witness :
  ∃ s' frame,
    main_loop demo_image
      [[QUIT; MOUSEBUTTONDOWN 1 (40, 40)]; [MOUSEMOTION (70, 90)]]
      three_pieces [] = Ok (s', [frame]) ∧
    selected_piece s' = Some 1%nat ∧ running s' = false.
Proof.
  eexists _, _. split.
  - apply (main_loop_quits demo_image [QUIT; MOUSEBUTTONDOWN 1 (40, 40)]
             [[MOUSEMOTION (70, 90)]] three_pieces _ _ [] eq_refl);
      [left|reflexivity|reflexivity].
  - split; reflexivity.
Defined.

(** ** After a release *)

(** X19: the piece that a release of button 1 drops is afterwards on its
    target or at least SNAP_DISTANCE away from it on some axis: no piece
    is left lying close to its target without being on it. *)
Theorem released_piece_on_target_or_far s pos s' r p' :
  handle_event s (MOUSEBUTTONUP 1 pos) = Ok s' →
  selected_piece s = Some r → heap s' !! r = Some p' →
  Rect.topleft (rect p') = correct_pos p' ∨
  SNAP_DISTANCE ≤ Z.abs (Rect.x (rect p') - (correct_pos p').1) ∨
  SNAP_DISTANCE ≤ Z.abs (Rect.y (rect p') - (correct_pos p').2).
Proof.
  intros Hrun Hsel Hp'. cbn [handle_event] in Hrun.
  rewrite decide_True in Hrun by done. rewrite Hsel in Hrun.
  unfold deref in Hrun.
  destruct (heap s !! r) as [piece|] eqn:Hr; simpl in Hrun; [|done].
  injection Hrun as <-. simpl in Hp'.
  rewrite list_lookup_insert_eq in Hp' by by eapply lookup_lt_Some.
  injection Hp' as <-. unfold SNAP_DISTANCE.
  destruct (snap_to_place_cases (set_moving piece false))
    as [(_ & _ & ->)|[Hfar ->]]; simpl in *.
  - left. by destruct (correct_pos piece).
  - right. lia.
Qed.

Lemma released_piece_on_target_or_far_witness :
  let p' := mkPiece (Surface.mk 50 50 0 0) (50, 50) (Rect.mk 50 50 50 50)
                    false in
  Rect.topleft (rect p') = correct_pos p' ∨
  SNAP_DISTANCE ≤ Z.abs (Rect.x (rect p') - (correct_pos p').1) ∨
  SNAP_DISTANCE ≤ Z.abs (Rect.y (rect p') - (correct_pos p').2).
Proof.
  apply (released_piece_on_target_or_far
           (mkSession
              [mkPiece (Surface.mk 50 50 0 0) (50, 50) (Rect.mk 48 51 50 50)
                       true]
              [0%nat] (Some 0%nat) 5 5 true)
           (53, 56) _ 0%nat _ eq_refl eq_refl eq_refl).
Defined.

(** ** The order of the render list *)

(** X20: an event reorders the render list in one way only: the piece that
    the event picks up moves to the end, and the other pieces keep their
    order. *)
Theorem handle_event_reorders_by_raising s event s' :
  handle_event s event = Ok s' →
  pieces s' = pieces s ∨
  ∃ before r after,
    pieces s = before ++ r :: after ∧ pieces s' = before ++ after ++ [r] ∧
    selected_piece s' = Some r.
Proof.
  destruct event as [|button pos|pos|button pos|]; cbn [handle_event].
  - intros [= <-]. by left.
  - case_decide; [|intros [= <-]; by left]. intros Hrun.
    apply mousedown_loop_inv in Hrun as [->|Hpick]; [by left|].
    destruct Hpick as (r & piece & before & after & _ & _ & _ & Hps & _ & ->).
    right. by exists before, r, after.
  - destruct (selected_piece s) as [r|]; [|intros [= <-]; by left].
    destruct (deref (heap s) r) as [piece|]; simpl; [|done].
    destruct (moving piece); intros [= <-]; by left.
  - case_decide; [|intros [= <-]; by left].
    destruct (selected_piece s) as [r|]; [|intros [= <-]; by left].
    destruct (deref (heap s) r) as [piece|]; simpl; [|done].
    intros [= <-]. by left.
  - intros [= <-]. by left.
Qed.

Lemma handle_event_reorders_by_raising_witness :
  ∃ s',
    handle_event three_pieces (MOUSEBUTTONDOWN 1 (40, 40)) = Ok s' ∧
    (pieces s' = pieces three_pieces ∨
     ∃ before r after,
       pieces three_pieces = before ++ r :: after ∧
       pieces s' = before ++ after ++ [r] ∧ selected_piece s' = Some r).
Proof.
  eexists. split; [reflexivity|].
  apply (handle_event_reorders_by_raising three_pieces
           (MOUSEBUTTONDOWN 1 (40, 40)) _ eq_refl).
Defined.

(** ** Presses that arrive only while nothing is selected *)

(** X21: in a run from an initial session in which button 1 is pressed
    only while nothing is selected, the pieces flagged as moving are the
    selected piece and no other: at most one piece is flagged, and none
    while nothing is selected. *)
Theorem disciplined_at_most_one s0 events s :
  initial s0 → disciplined s0 events → run_events s0 events = Ok s →
  (length (dragging s) ≤ 1)%nat ∧
  (selected_piece s = None → dragging s = []) ∧
  (∀ r, selected_piece s = Some r → dragging s = [r]).
Proof.
  intros Hinit Hdisc Hrun.
  destruct (disciplined_tidy events s0 s (initial_inv _ Hinit)
              (initial_tidy _ Hinit) Hdisc Hrun) as [_ Htidy].
  unfold tidy in Htidy. rewrite Htidy.
  destruct (selected_piece s) as [r|]; simpl; split_and!; try done; try lia.
  by intros r' [= <-].
Qed.

Lemma disciplined_at_most_one_witness :
  ∃ s,
    run_events three_pieces [MOUSEBUTTONDOWN 1 (40, 40); MOUSEMOTION (70, 90)]
      = Ok s ∧
    dragging s = [1%nat].
Proof.
  eexists. split; [reflexivity|].
  apply (disciplined_at_most_one three_pieces
           [MOUSEBUTTONDOWN 1 (40, 40); MOUSEMOTION (70, 90)] _
           three_pieces_initial).
  - split; [done|]. intros s1 [= <-].
    split; [done|]. intros s2 [= <-]. exact I.
  - reflexivity.
  - reflexivity.
Defined.
